(** * render_timer: a frame-pacing timer (src/render_timer.h)

    The class owns a background thread that periodically raises a
    one-slot "render ready" flag and wakes the threads blocked in
    [can_render].  The source holds two revisions of the class; they
    share [start], [stop], [set_fps], [can_render] and
    [get_render_interval], and differ in [timer_loop].  This
    development follows the later revision, whose loop corrects the
    interval after an overrun.

    The embedding:

    - the object's fields are the record [render_timer]; the member
      functions that run to completion without synchronising
      ([set_fps], [get_render_interval]) and the interval arithmetic
      of [timer_loop] are functions on that record;
    - the blocking member functions ([start], [stop], [can_render])
      and the body of [timer_loop] are cut at their synchronisation
      points into atomic actions; a [world] holds the object, the
      position of every client thread and the clock, and [step] runs
      one atomic action of one thread, chosen by a [label];
    - [run] executes a schedule (a list of labels), so every scenario
      below can be evaluated.

    Threads interleave at the granularity of these actions.  Accesses
    to the plain [int] fields are taken to be atomic.  Under [step] a
    thread blocked on the condition variable is released by
    [notify_all] only; the wake-ups without a notification that
    [condition_variable::wait] permits are a separate event of the
    extended step [ev_step], and every statement about a thread that
    stays blocked says which of the two it is about.  The clock of the
    world moves forward only; a statement that depends on the order of
    two readings of [high_resolution_clock], which need not be steady,
    carries that order as a hypothesis and is stated for every world.  *)

From stdpp Require Import base numbers list.

(** ** Machine integers and durations *)

Module Int.

(** [int] is 32 bits wide; conversion of a wider value to [int]
    keeps the low 32 bits (two's complement). *)
Definition int_min : Z := (- 2 ^ 31)%Z.
Definition int_max : Z := (2 ^ 31 - 1)%Z.

Definition in_range (z : Z) : Prop := (int_min <= z <= int_max)%Z.

Definition to_int (z : Z) : Z := ((z + 2 ^ 31) `mod` 2 ^ 32 - 2 ^ 31)%Z.

End Int.

Module Chrono.

(** Readings of [high_resolution_clock] count nanoseconds;
    [duration_cast<milliseconds>] divides by 10^6 and truncates
    toward zero. *)
Definition ns_per_ms : Z := 1000000%Z.

Definition duration_cast_ms (ns : Z) : Z := (ns `quot` ns_per_ms)%Z.

Definition milliseconds (ms : Z) : Z := (ms * ns_per_ms)%Z.

End Chrono.

(** ** The object *)

(** Where the background thread stands inside [timer_loop].  The local
    [frame_start] travels with the position; the local
    [last_frame_end] is written and never read, and is left out. *)
Inductive loop_pc : Type :=
  | LCheck                      (* while (m_running.load()) *)
  | LLock (frame_start : Z)     (* lock_guard lock(m_mutex) *)
  | LSet (frame_start : Z)      (* m_render_ready.test_and_set(); unlock *)
  | LNotify (frame_start : Z)   (* m_cv.notify_all() *)
  | LMeasure (frame_start : Z)  (* frame_end ... interval correction *)
  | LSleep (wake_at : Z)        (* sleep_for(sleep_duration) *)
  | LDone.                      (* timer_loop returned *)

(** [std::thread]: default constructed it is not joinable; once it
    runs [timer_loop] it stays joinable until it is joined. *)
Inductive thread : Type :=
  | NotJoinable
  | Joinable (pc : loop_pc).

(** The fields of [render_timer].  [m_mutex] is [true] while some
    thread holds it.  [m_cv] has no state of its own: its wait set is
    the set of client threads standing at [CrBlocked] (below). *)
Record render_timer : Type := mk_render_timer {
  m_fps : Z;
  m_render_interval : Z;
  m_running : bool;
  m_start_time : Z;
  m_mutex : bool;
  m_render_ready : bool;
  m_thread : thread
}.

Definition with_fps (fps interval : Z) (t : render_timer) : render_timer :=
  mk_render_timer fps interval (m_running t) (m_start_time t)
                  (m_mutex t) (m_render_ready t) (m_thread t).

Definition with_interval (interval : Z) (t : render_timer) : render_timer :=
  with_fps (m_fps t) interval t.

Definition with_running (b : bool) (t : render_timer) : render_timer :=
  mk_render_timer (m_fps t) (m_render_interval t) b (m_start_time t)
                  (m_mutex t) (m_render_ready t) (m_thread t).

Definition with_start_time (now : Z) (t : render_timer) : render_timer :=
  mk_render_timer (m_fps t) (m_render_interval t) (m_running t) now
                  (m_mutex t) (m_render_ready t) (m_thread t).

Definition with_mutex (b : bool) (t : render_timer) : render_timer :=
  mk_render_timer (m_fps t) (m_render_interval t) (m_running t)
                  (m_start_time t) b (m_render_ready t) (m_thread t).

Definition with_render_ready (b : bool) (t : render_timer) : render_timer :=
  mk_render_timer (m_fps t) (m_render_interval t) (m_running t)
                  (m_start_time t) (m_mutex t) b (m_thread t).

Definition with_thread (th : thread) (t : render_timer) : render_timer :=
  mk_render_timer (m_fps t) (m_render_interval t) (m_running t)
                  (m_start_time t) (m_mutex t) (m_render_ready t) th.

(** [render_timer()]: m_fps(60), m_render_interval(1000 / m_fps),
    m_running(false), m_start_time(now), flag clear, no thread. *)
Definition render_timer_new (now : Z) : render_timer :=
  let fps := 60%Z in
  mk_render_timer fps (1000 `quot` fps)%Z false now false false NotJoinable.

(** [set_fps]. *)
Definition set_fps (fps : Z) (t : render_timer) : render_timer :=
  if bool_decide (0 < fps)%Z && negb (bool_decide (fps = m_fps t))
  then with_fps fps (1000 `quot` fps)%Z t
  else t.

(** [get_render_interval]. *)
Definition get_render_interval (t : render_timer) : Z := m_render_interval t.

(** [m_running.exchange(b)]: the old value and the updated object. *)
Definition exchange_running (b : bool) (t : render_timer) : bool * render_timer :=
  (m_running t, with_running b t).

(** [m_render_ready.test_and_set()]: the old value and the object with
    the flag set. *)
Definition test_and_set (t : render_timer) : bool * render_timer :=
  (m_render_ready t, with_render_ready true t).

(** [m_render_ready.clear()]. *)
Definition clear (t : render_timer) : render_timer := with_render_ready false t.

(** Lines 180-188 of [timer_loop]: from the measured [frame_duration]
    (milliseconds), the remaining sleep and the corrected interval.
    [sleep_duration] is computed before the correction.  The
    subtraction is done in the 64-bit representation of the duration
    and the result is stored back into the [int] field. *)
Definition sleep_duration (frame_duration : Z) (t : render_timer) : Z :=
  (m_render_interval t - frame_duration)%Z.

Definition extra_duration (frame_duration : Z) (t : render_timer) : Z :=
  (frame_duration - m_render_interval t)%Z.

Definition correct_interval (frame_duration : Z) (t : render_timer) : render_timer :=
  let extra := extra_duration frame_duration t in
  if bool_decide (0 < extra)%Z
  then with_interval (Int.to_int (m_render_interval t - extra)) t
  else t.

(** ** Client threads *)

(** What a member function hands back to its caller. *)
Inductive retval : Type :=
  | RVoid
  | RBool (b : bool)
  | RInt (z : Z).

(** Where a client thread stands.  Each position names the next atomic
    action of the member function the thread is in. *)
Inductive client_pc : Type :=
  | Idle                        (* no call made yet *)
  | Returned (v : retval)       (* the last call returned v *)
  | StartEntry                  (* if (!m_running.exchange(true)) *)
  | StartLaunch                 (* m_start_time = now(); m_thread = std::thread(...) *)
  | StopEntry                   (* if (m_running.exchange(false)) *)
  | StopNotify                  (* m_cv.notify_all() *)
  | StopJoin                    (* m_thread.join() *)
  | SetFpsEntry (fps : Z)       (* body of set_fps *)
  | GetEntry                    (* return m_render_interval *)
  | CrLock                      (* unique_lock lock(m_mutex) *)
  | CrPred                      (* the predicate of m_cv.wait, mutex held *)
  | CrEnterWait                 (* predicate was false: release the mutex and block *)
  | CrBlocked                   (* blocked on m_cv, mutex released *)
  | CrWoken                     (* notified: reacquire the mutex *)
  | CrClear.                    (* m_render_ready.clear(); return true *)

Inductive api : Type :=
  | Start
  | Stop
  | SetFps (fps : Z)
  | CanRender
  | GetRenderInterval.

Definition entry (op : api) : client_pc :=
  match op with
  | Start => StartEntry
  | Stop => StopEntry
  | SetFps fps => SetFpsEntry fps
  | CanRender => CrLock
  | GetRenderInterval => GetEntry
  end.

(** ** The world and its steps *)

(** [clients] is indexed by thread id.  [clock] is the current reading
    of [high_resolution_clock].  [ticks] and [launched] are history
    counters: how often the loop has raised the flag, and how many
    background threads have been created. *)
Record world : Type := mk_world {
  timer : render_timer;
  clients : list client_pc;
  clock : Z;
  ticks : nat;
  launched : nat
}.

Definition set_timer (tm : render_timer) (w : world) : world :=
  mk_world tm (clients w) (clock w) (ticks w) (launched w).

Definition set_client (t : nat) (pc : client_pc) (w : world) : world :=
  mk_world (timer w) (<[t := pc]> (clients w)) (clock w) (ticks w) (launched w).

Definition set_loop (pc : loop_pc) (w : world) : world :=
  set_timer (with_thread (Joinable pc) (timer w)) w.

Definition count_tick (w : world) : world :=
  mk_world (timer w) (clients w) (clock w) (S (ticks w)) (launched w).

Definition count_launch (w : world) : world :=
  mk_world (timer w) (clients w) (clock w) (ticks w) (S (launched w)).

Definition advance (dt : Z) (w : world) : world :=
  mk_world (timer w) (clients w) (clock w + dt)%Z (ticks w) (launched w).

(** [m_cv.notify_all()]: every thread blocked on the condition
    variable is released and will next try to take the mutex again. *)
Definition wake (pc : client_pc) : client_pc :=
  match pc with
  | CrBlocked => CrWoken
  | _ => pc
  end.

Definition notify_all (w : world) : world :=
  mk_world (timer w) (wake <$> clients w) (clock w) (ticks w) (launched w).

(** A step either happens, or the thread cannot move now ([Blocked]),
    or the program dies ([Fault]): [std::terminate] on assigning to a
    joinable [std::thread], [std::system_error] on joining a thread
    that is not joinable. *)
Inductive result (A : Type) : Type :=
  | Ok (a : A)
  | Blocked
  | Fault.
Arguments Ok {A} a.
Arguments Blocked {A}.
Arguments Fault {A}.

(** The world's initial state: the object just constructed and [n]
    client threads that have not called anything yet. *)
Definition init (n : nat) (now : Z) : world :=
  mk_world (render_timer_new now) (replicate n Idle) now 0 0.

(** One atomic action of client [t] standing at [pc]. *)
Definition client_step (t : nat) (pc : client_pc) (w : world) : result world :=
  let tm := timer w in
  match pc with
  | Idle | Returned _ => Blocked
  | StartEntry =>
      let '(was_running, tm') := exchange_running true tm in
      Ok (set_client t (if negb was_running then StartLaunch else Returned RVoid)
                     (set_timer tm' w))
  | StartLaunch =>
      let tm' := with_start_time (clock w) tm in
      match m_thread tm' with
      | Joinable _ => Fault
      | NotJoinable =>
          Ok (set_client t (Returned RVoid)
                (count_launch (set_timer (with_thread (Joinable LCheck) tm') w)))
      end
  | StopEntry =>
      let '(was_running, tm') := exchange_running false tm in
      Ok (set_client t (if was_running then StopNotify else Returned RVoid)
                     (set_timer tm' w))
  | StopNotify => Ok (set_client t StopJoin (notify_all w))
  | StopJoin =>
      match m_thread tm with
      | NotJoinable => Fault
      | Joinable LDone =>
          Ok (set_client t (Returned RVoid) (set_timer (with_thread NotJoinable tm) w))
      | Joinable _ => Blocked
      end
  | SetFpsEntry fps =>
      Ok (set_client t (Returned RVoid) (set_timer (set_fps fps tm) w))
  | GetEntry =>
      Ok (set_client t (Returned (RInt (get_render_interval tm))) w)
  | CrLock | CrWoken =>
      if m_mutex tm then Blocked
      else Ok (set_client t CrPred (set_timer (with_mutex true tm) w))
  | CrPred =>
      let '(ready, tm') := test_and_set tm in
      Ok (set_client t (if ready then CrClear else CrEnterWait) (set_timer tm' w))
  | CrEnterWait =>
      Ok (set_client t CrBlocked (set_timer (with_mutex false tm) w))
  | CrBlocked => Blocked
  | CrClear =>
      Ok (set_client t (Returned (RBool true))
                     (set_timer (with_mutex false (clear tm)) w))
  end.

(** Line 180 of [timer_loop]: the work duration the loop measures
    when it reads the clock in world [w], having started the iteration
    at [frame_start]. *)
Definition frame_duration (w : world) (frame_start : Z) : Z :=
  let frame_end := clock w in
  Chrono.duration_cast_ms (frame_end - frame_start).

(** One atomic action of the background thread running [timer_loop].
    The reading of [frame_end], the correction and the call of
    [sleep_for] are one action, so the sleep is counted from the
    reading; in the source the call comes a few statements later, and
    the sleep lasts at least [sleep_duration] from that call. *)
Definition loop_step (w : world) : result world :=
  let tm := timer w in
  match m_thread tm with
  | NotJoinable => Blocked
  | Joinable LCheck =>
      Ok (set_loop (if m_running tm then LLock (clock w) else LDone) w)
  | Joinable (LLock frame_start) =>
      if m_mutex tm then Blocked
      else Ok (set_loop (LSet frame_start) (set_timer (with_mutex true tm) w))
  | Joinable (LSet frame_start) =>
      let '(_, tm') := test_and_set tm in
      Ok (count_tick (set_loop (LNotify frame_start)
                               (set_timer (with_mutex false tm') w)))
  | Joinable (LNotify frame_start) =>
      Ok (set_loop (LMeasure frame_start) (notify_all w))
  | Joinable (LMeasure frame_start) =>
      let duration := frame_duration w frame_start in
      let sleep := sleep_duration duration tm in
      let w' := set_timer (correct_interval duration tm) w in
      Ok (set_loop (if bool_decide (0 < sleep)%Z
                    then LSleep (clock w + Chrono.milliseconds sleep)%Z
                    else LCheck) w')
  | Joinable (LSleep wake_at) =>
      if bool_decide (wake_at <= clock w)%Z then Ok (set_loop LCheck w) else Blocked
  | Joinable LDone => Blocked
  end.

(** What the scheduler and the environment can do next. *)
Inductive label : Type :=
  | Call (t : nat) (op : api)   (* client t, between calls, enters op *)
  | Step (t : nat)              (* client t runs its next atomic action *)
  | LoopStep                    (* the background thread runs its next action *)
  | Elapse (dt : Z).            (* time passes *)

Definition step (l : label) (w : world) : result world :=
  match l with
  | Call t op =>
      match clients w !! t with
      | Some Idle | Some (Returned _) => Ok (set_client t (entry op) w)
      | _ => Blocked
      end
  | Step t =>
      match clients w !! t with
      | Some pc => client_step t pc w
      | None => Blocked
      end
  | LoopStep => loop_step w
  | Elapse dt =>
      if bool_decide (0 <= dt)%Z then Ok (advance dt w) else Blocked
  end.

(** Run a schedule. *)
Fixpoint run (sched : list label) (w : world) : result world :=
  match sched with
  | [] => Ok w
  | l :: sched' =>
      match step l w with
      | Ok w' => run sched' w'
      | Blocked => Blocked
      | Fault => Fault
      end
  end.

(** ** Predicates used by the statements *)

(** The interval agrees with the stored frequency. *)
Definition consistent (t : render_timer) : Prop :=
  m_render_interval t = (1000 `quot` m_fps t)%Z.

(** Client [c] exists and is between two calls. *)
Definition callable (w : world) (c : nat) : Prop :=
  clients w !! c = Some Idle ∨ ∃ v, clients w !! c = Some (Returned v).

(** Client [c] stands at [pc]. *)
Definition at_pc (w : world) (c : nat) (pc : client_pc) : Prop :=
  clients w !! c = Some pc.

(** The loop stands at [pc]. *)
Definition loop_at (w : world) (pc : loop_pc) : Prop :=
  m_thread (timer w) = Joinable pc.

(** A loop iteration overruns in [w] when the loop is about to take
    its reading and the work duration exceeds the interval. *)
Definition overruns (w : world) : Prop :=
  ∃ frame_start, loop_at w (LMeasure frame_start) ∧
                 (m_render_interval (timer w) < frame_duration w frame_start)%Z.

(** ** Schedules *)

(** The schedule of one client calling a member function that runs in
    one atomic action. *)
Definition call_once (c : nat) (op : api) : list label := [Call c op; Step c].

(** One client calling [start] on a pacer that is not running: the
    exchange, then the launch. *)
Definition start_sched (c : nat) : list label := [Call c Start; Step c; Step c].

(** The loop from the top of an iteration to its reading of the clock:
    check the running flag, lock, raise the flag, notify. *)
Definition loop_tick : list label := [LoopStep; LoopStep; LoopStep; LoopStep].

(** An iteration whose bookkeeping takes 20 ms against the default
    interval of 16 ms. *)
Definition overrun_sched : list label :=
  start_sched 0 ++ loop_tick ++ [Elapse (Chrono.milliseconds 20); LoopStep].

(** Three iterations in a row that each take 20 ms. *)
Definition sustained_overrun_sched : list label :=
  overrun_sched
  ++ loop_tick ++ [Elapse (Chrono.milliseconds 20); LoopStep]
  ++ loop_tick ++ [Elapse (Chrono.milliseconds 20); LoopStep].

(** One client going through [can_render] as far as three actions take
    it: lock, predicate, and then either "block" or "clear and return". *)
Definition can_render_sched (c : nat) : list label :=
  [Call c CanRender; Step c; Step c; Step c].

(** [stop] called by client [c] while the loop sleeps until 16 ms:
    exchange, notify; the sleep ends, the loop sees the flag down and
    returns; join. *)
Definition stop_sleeping_loop_sched (c : nat) : list label :=
  [Call c Stop; Step c; Step c;
   Elapse (Chrono.milliseconds 16); LoopStep; LoopStep;
   Step c].

(** A client released from the condition variable: reacquire the
    mutex, evaluate the predicate, and one more action. *)
Definition resume_sched (c : nat) : list label := [Step c; Step c; Step c].

(** Client 0 starts the pacer; client 1 enters [can_render] and
    blocks; client 2 enters, returns at once, enters again and blocks.
    The loop has not been scheduled yet. *)
Definition two_blocked_sched : list label :=
  start_sched 0 ++ can_render_sched 1 ++ can_render_sched 2 ++ can_render_sched 2.

(** [stop] called by client [c] while the loop stands at the top of an
    iteration: exchange, notify; the loop sees the flag down and
    returns; join. *)
Definition stop_sched (c : nat) : list label :=
  [Call c Stop; Step c; Step c; LoopStep; Step c].

(** Labels that stand for a new call by a client, as opposed to the
    progress of calls already made, of the loop, and of time. *)
Definition is_call (l : label) : bool :=
  match l with
  | Call _ _ => true
  | _ => false
  end.

(** A client that is between calls or blocked on the condition
    variable has nothing to run. *)
Definition parked (pc : client_pc) : Prop :=
  match pc with
  | Idle | Returned _ | CrBlocked => True
  | _ => False
  end.

(** No thread can move: there is no background thread and every
    client is parked. *)
Definition quiescent (w : world) : Prop :=
  m_thread (timer w) = NotJoinable ∧ Forall parked (clients w).

(** The positions inside [start] and [stop]. *)
Definition in_start_or_stop (pc : client_pc) : bool :=
  match pc with
  | StartEntry | StartLaunch | StopEntry | StopNotify | StopJoin => true
  | _ => false
  end.

(** The pacer runs, the loop produces one tick that nobody consumes
    and goes to sleep; client 0 stops the pacer. *)
Definition unconsumed_tick_then_stop_sched : list label :=
  start_sched 0 ++ loop_tick ++ [LoopStep] ++ stop_sleeping_loop_sched 0.

(** The positions inside [start]. *)
Definition in_start (pc : client_pc) : bool :=
  match pc with
  | StartEntry | StartLaunch => true
  | _ => false
  end.

Definition is_start_call (l : label) : bool :=
  match l with
  | Call _ Start => true
  | _ => false
  end.

(** No client is inside [start]. *)
Definition no_start_pending (w : world) : Prop :=
  Forall (λ pc, in_start pc = false) (clients w).

(** The positions inside [stop]. *)
Definition in_stop (pc : client_pc) : bool :=
  match pc with
  | StopEntry | StopNotify | StopJoin => true
  | _ => false
  end.

Definition is_stop_call (l : label) : bool :=
  match l with
  | Call _ Stop => true
  | _ => false
  end.

(** No client is inside [stop]. *)
Definition no_stop_pending (w : world) : Prop :=
  Forall (λ pc, in_stop pc = false) (clients w).

(** How many clients have won the exchange in [start] and are about
    to create the background thread. *)
Definition launching (pc : client_pc) : nat :=
  match pc with
  | StartLaunch => 1
  | _ => 0
  end.

Fixpoint pending_launches (l : list client_pc) : nat :=
  match l with
  | [] => 0
  | pc :: l' => launching pc + pending_launches l'
  end.

(** How many background threads exist. *)
Definition active_loops (w : world) : nat :=
  match m_thread (timer w) with
  | Joinable _ => 1
  | NotJoinable => 0
  end.

(** As long as nobody calls [stop]: [timer_loop] does not return, the
    running flag is up exactly when one loop exists or is about to be
    created, and every thread ever created still exists. *)
Definition single_loop (w : world) : Prop :=
  no_stop_pending w
  ∧ ¬ loop_at w LDone
  ∧ pending_launches (clients w) + active_loops w = Nat.b2n (m_running (timer w))
  ∧ launched w = active_loops w.

(** Two clients calling [start] at the same time: both enter, client 0
    wins the exchange, client 1 loses it and returns, client 0
    launches. *)
Definition concurrent_start_sched : list label :=
  [Call 0 Start; Call 1 Start; Step 0; Step 1; Step 0].

(** ** Further definitions *)

(** The positions at which a client holds [m_mutex]: from the lock
    taken at the top of [can_render] or on wake-up, until the wait
    releases it or the function returns. *)
Definition holds_mutex (pc : client_pc) : nat :=
  match pc with
  | CrPred | CrEnterWait | CrClear => 1
  | _ => 0
  end.

Fixpoint mutex_holders (l : list client_pc) : nat :=
  match l with
  | [] => 0
  | pc :: l' => holds_mutex pc + mutex_holders l'
  end.

(** The loop holds the mutex inside its [lock_guard] block. *)
Definition loop_holds_mutex (w : world) : nat :=
  match m_thread (timer w) with
  | Joinable (LSet _) => 1
  | _ => 0
  end.

(** The mutex is taken exactly when one thread holds it. *)
Definition mutex_owned (w : world) : Prop :=
  mutex_holders (clients w) + loop_holds_mutex w = Nat.b2n (m_mutex (timer w)).

(** One client, the controller, is the only one to call [start] and
    [stop]. *)
Definition controlled (ctl : nat) (l : label) : bool :=
  match l with
  | Call t Start | Call t Stop => bool_decide (t = ctl)
  | _ => true
  end.

(** Where the controller stands with respect to the background
    thread: between the exchange of [start] and the creation of the
    thread, between the exchange of [stop] and the end of the join, or
    outside both windows. *)
Inductive ctl_phase : Type :=
  | Launching
  | Joining
  | Settled.

Definition phase_of (pc : option client_pc) : ctl_phase :=
  match pc with
  | Some StartLaunch => Launching
  | Some StopNotify | Some StopJoin => Joining
  | _ => Settled
  end.

(** What the running flag and the thread object look like in each
    phase. *)
Definition phase_ok (ph : ctl_phase) (t : render_timer) : Prop :=
  match ph with
  | Launching => m_running t = true ∧ m_thread t = NotJoinable
  | Joining => m_running t = false ∧ ∃ pc, m_thread t = Joinable pc
  | Settled =>
      (m_running t = true ∧ ∃ pc, m_thread t = Joinable pc ∧ pc ≠ LDone)
      ∨ (m_running t = false ∧ m_thread t = NotJoinable)
  end.

(** Nobody but the controller is inside [start] or [stop], and the
    object is in the state the controller's phase calls for. *)
Definition controlled_world (ctl : nat) (w : world) : Prop :=
  (∀ t pc, clients w !! t = Some pc → t ≠ ctl → in_start_or_stop pc = false)
  ∧ phase_ok (phase_of (clients w !! ctl)) (timer w).

(** The controller starts the pacer, another client goes through
    [can_render] while the loop ticks, the controller stops the pacer
    and starts it again. *)
Definition restart_sched : list label :=
  start_sched 0 ++ loop_tick ++ can_render_sched 1
  ++ [LoopStep] ++ stop_sleeping_loop_sched 0 ++ start_sched 0.

(** The positions inside [can_render], and those among them at which
    the client has found the flag clear and not yet seen it again. *)
Definition in_can_render (pc : client_pc) : bool :=
  match pc with
  | CrLock | CrPred | CrEnterWait | CrBlocked | CrWoken | CrClear => true
  | _ => false
  end.

Definition waiting (pc : client_pc) : bool :=
  match pc with
  | CrEnterWait | CrBlocked | CrWoken => true
  | _ => false
  end.

(** One client, the consumer, is the only one to call [can_render]. *)
Definition one_consumer (c : nat) (l : label) : bool :=
  match l with
  | Call t CanRender => bool_decide (t = c)
  | _ => true
  end.

(** Nobody but the consumer is inside [can_render], and while the
    consumer waits the flag is set. *)
Definition consumer_world (c : nat) (w : world) : Prop :=
  (∀ t pc, clients w !! t = Some pc → t ≠ c → in_can_render pc = false)
  ∧ (∀ pc, clients w !! c = Some pc → waiting pc = true →
       m_render_ready (timer w) = true).

(** The pacer runs, client 1 enters [can_render] before the first
    tick and blocks, and the loop produces its first tick and
    notifies. *)
Definition wait_for_first_tick_sched : list label :=
  start_sched 0 ++ can_render_sched 1 ++ loop_tick.

(** How many more times the loop will raise the flag before it reads
    the running flag again: one if it is past the check and has not
    raised the flag yet in this iteration, none otherwise. *)
Definition tick_budget (w : world) : nat :=
  match m_thread (timer w) with
  | Joinable (LLock _) | Joinable (LSet _) => 1
  | _ => 0
  end.

(** Labels of the background thread and of the clock. *)
Definition is_loop_or_time (l : label) : bool :=
  match l with
  | LoopStep | Elapse _ => true
  | _ => false
  end.

(** The loop can return from [timer_loop] in at most [k] of its own
    steps and clock steps. *)
Definition returns_within (k : nat) (w : world) : Prop :=
  ∃ sched w',
    length sched ≤ k
    ∧ forallb is_loop_or_time sched = true
    ∧ run sched w = Ok w'
    ∧ loop_at w' LDone
    ∧ ticks w' ≤ ticks w + tick_budget w.

(** ** The earlier revision of [timer_loop]

    The earlier revision of the class has the same member functions
    and a different loop: each iteration first sleeps for the whole
    interval, then raises the flag and notifies, and never writes the
    interval.  Its positions are those of the loop above with a sleep
    in front.  The client threads run as before; the thread object of
    the world records only whether the loop has returned ([LDone]) or
    not ([LCheck]), and the position inside the earlier loop is kept
    beside the world. *)

Module Rev1.

Inductive pc : Type :=
  | Check                               (* while (m_running.load()) *)
  | Sleep (frame_start wake_at : Z)     (* sleep_for(milliseconds(m_render_interval)) *)
  | Lock (frame_start : Z)              (* lock_guard lock(m_mutex) *)
  | Raise (frame_start : Z)             (* m_render_ready.test_and_set(); unlock *)
  | Notify (frame_start : Z)            (* m_cv.notify_all() *)
  | Measure (frame_start : Z)           (* frame_end ... sleep_duration *)
  | Sleep2 (wake_at : Z)                (* sleep_for(sleep_duration) *)
  | Done.                               (* timer_loop returned *)

Record state : Type := mk_state {
  world_of : world;
  loop : pc
}.

(** One atomic action of the background thread. *)
Definition loop_step (s : state) : result state :=
  let w := world_of s in
  let tm := timer w in
  match m_thread tm with
  | Joinable LCheck =>
      match loop s with
      | Check =>
          if m_running tm
          then Ok (mk_state w
                     (Sleep (clock w)
                            (clock w + Chrono.milliseconds (m_render_interval tm))%Z))
          else Ok (mk_state (set_loop LDone w) Done)
      | Sleep frame_start wake_at =>
          if bool_decide (wake_at <= clock w)%Z
          then Ok (mk_state w (Lock frame_start))
          else Blocked
      | Lock frame_start =>
          if m_mutex tm then Blocked
          else Ok (mk_state (set_timer (with_mutex true tm) w) (Raise frame_start))
      | Raise frame_start =>
          let '(_, tm') := test_and_set tm in
          Ok (mk_state (count_tick (set_timer (with_mutex false tm') w))
                       (Notify frame_start))
      | Notify frame_start =>
          Ok (mk_state (notify_all w) (Measure frame_start))
      | Measure frame_start =>
          let duration := frame_duration w frame_start in
          let sleep := sleep_duration duration tm in
          Ok (mk_state w
                (if bool_decide (0 < sleep)%Z
                 then Sleep2 (clock w + Chrono.milliseconds sleep)%Z
                 else Check))
      | Sleep2 wake_at =>
          if bool_decide (wake_at <= clock w)%Z
          then Ok (mk_state w Check)
          else Blocked
      | Done => Blocked
      end
  | _ => Blocked
  end.

(** The step of a client that creates the background thread puts the
    loop at the top of [timer_loop]. *)
Definition launches (l : label) (w : world) : bool :=
  match l with
  | Step t =>
      match clients w !! t with
      | Some StartLaunch => true
      | _ => false
      end
  | _ => false
  end.

Definition step (l : label) (s : state) : result state :=
  match l with
  | LoopStep => loop_step s
  | _ =>
      match step l (world_of s) with
      | Ok w' =>
          Ok (mk_state w' (if launches l (world_of s) then Check else loop s))
      | Blocked => Blocked
      | Fault => Fault
      end
  end.

Fixpoint run (sched : list label) (s : state) : result state :=
  match sched with
  | [] => Ok s
  | l :: sched' =>
      match step l s with
      | Ok s' => run sched' s'
      | Blocked => Blocked
      | Fault => Fault
      end
  end.

Definition init (n : nat) (now : Z) : state := mk_state (init n now) Check.

(** The loop begins an iteration: it is at its check, the flag is up
    and the thread has not returned. *)
Definition at_top (s : state) : Prop :=
  loop s = Check
  ∧ m_thread (timer (world_of s)) = Joinable LCheck
  ∧ m_running (timer (world_of s)) = true.

End Rev1.

(** Seen from the top of an iteration that began no earlier than
    [since] with interval [i]: either a whole interval has passed, or
    no tick has been produced since [ticks0] and the loop is still
    at its check, asleep until a time one interval later, or gone. *)
Definition rev1_before_tick (since i : Z) (ticks0 : nat) (s : Rev1.state) : Prop :=
  (since ≤ clock (Rev1.world_of s))%Z
  ∧ m_render_interval (timer (Rev1.world_of s)) = i
  ∧ ((since + Chrono.milliseconds i ≤ clock (Rev1.world_of s))%Z
     ∨ (ticks (Rev1.world_of s) = ticks0
        ∧ (Rev1.loop s = Rev1.Check
           ∨ Rev1.loop s = Rev1.Done
           ∨ ∃ frame_start wake_at,
               Rev1.loop s = Rev1.Sleep frame_start wake_at
               ∧ (since + Chrono.milliseconds i ≤ wake_at)%Z))).

(** The pacer is started and stopped at once; before the join,
    client 1 enters [can_render], finds the flag clear and is about to
    block. *)
Definition late_waiter_sched : list label :=
  start_sched 0
  ++ [Call 0 Stop; Step 0; LoopStep; Call 1 CanRender; Step 1; Step 1].

(** ** Wake-ups without notification

    [condition_variable::wait] may unblock a waiting thread although
    nobody has notified it.  The woken thread reacquires the mutex and
    evaluates the predicate again, as after a notification. *)

Inductive event : Type :=
  | Sched (l : label)           (* a step of the scheduler or the clock *)
  | SpuriousWake (t : nat).     (* client t wakes up without notification *)

Definition spurious_wake (t : nat) (w : world) : result world :=
  match clients w !! t with
  | Some CrBlocked => Ok (set_client t CrWoken w)
  | _ => Blocked
  end.

Definition ev_step (e : event) (w : world) : result world :=
  match e with
  | Sched l => step l w
  | SpuriousWake t => spurious_wake t w
  end.

Fixpoint ev_run (evs : list event) (w : world) : result world :=
  match evs with
  | [] => Ok w
  | e :: evs' =>
      match ev_step e w with
      | Ok w' => ev_run evs' w'
      | Blocked => Blocked
      | Fault => Fault
      end
  end.

(** Events that are neither a new call by a client nor a wake-up
    without notification. *)
Definition is_quiet (e : event) : bool :=
  match e with
  | Sched l => negb (is_call l)
  | SpuriousWake _ => false
  end.

(** A client woken without notification, going on as after a
    notification. *)
Definition spurious_resume (c : nat) : list event :=
  SpuriousWake c :: (Sched <$> resume_sched c).

(** ** Sustained overrun up to the limit of [int] *)

(** One iteration of the loop whose bookkeeping takes 20 ms. *)
Definition overrun_iteration : list label :=
  loop_tick ++ [Elapse (Chrono.milliseconds 20); LoopStep].

Fixpoint iterate (n : nat) (sched : list label) : list label :=
  match n with
  | 0 => []
  | S n' => sched ++ iterate n' sched
  end.

(** Twenty-nine such iterations in a row, and the thirtieth up to its
    reading of the clock. *)
Definition wrapping_overrun_sched : list label :=
  start_sched 0 ++ iterate 29 overrun_iteration
  ++ loop_tick ++ [Elapse (Chrono.milliseconds 20)].

(** The loop stands before a reading that will show an overrun of
    20 ms against 16 ms, and client 0 has entered [set_fps(30)]. *)
Definition set_fps_before_overrun_sched : list label :=
  start_sched 0 ++ loop_tick
  ++ [Elapse (Chrono.milliseconds 20); Call 0 (SetFps 30)].

(** ** Basic facts *)

Lemma to_int_in_range z : Int.in_range (Int.to_int z).
Proof.
  unfold Int.in_range, Int.to_int, Int.int_min, Int.int_max.
  pose proof (Z.mod_pos_bound (z + 2 ^ 31) (2 ^ 32)) as H. lia.
Qed.

Lemma to_int_id z : Int.in_range z → Int.to_int z = z.
Proof.
  unfold Int.in_range, Int.to_int, Int.int_min, Int.int_max. intros H.
  rewrite Z.mod_small; lia.
Qed.

Lemma set_fps_accepted fps t :
  (0 < fps)%Z → fps ≠ m_fps t → set_fps fps t = with_fps fps (1000 `quot` fps)%Z t.
Proof.
  intros Hpos Hne. unfold set_fps.
  rewrite bool_decide_eq_true_2 by done.
  rewrite bool_decide_eq_false_2 by done. done.
Qed.

Lemma set_fps_ignored fps t :
  (fps ≤ 0)%Z ∨ fps = m_fps t → set_fps fps t = t.
Proof.
  intros [Hle | Heq]; unfold set_fps.
  - rewrite bool_decide_eq_false_2 by lia. done.
  - rewrite (bool_decide_eq_true_2 (fps = m_fps t)) by done.
    by rewrite andb_false_r.
Qed.

Lemma correct_interval_overrun d t :
  (m_render_interval t < d)%Z →
  correct_interval d t =
    with_interval (Int.to_int (m_render_interval t - (d - m_render_interval t))) t.
Proof.
  intros H. unfold correct_interval, extra_duration.
  rewrite bool_decide_eq_true_2 by lia. done.
Qed.

Lemma correct_interval_in_time d t :
  (d ≤ m_render_interval t)%Z → correct_interval d t = t.
Proof.
  intros H. unfold correct_interval, extra_duration.
  rewrite bool_decide_eq_false_2 by lia. done.
Qed.

Lemma callable_call w c op :
  callable w c → step (Call c op) w = Ok (set_client c (entry op) w).
Proof. intros [H | [v H]]; simpl; by rewrite H. Qed.

(** ** Configuration: [set_fps] and [get_render_interval] *)

Lemma run_set_fps w c fps :
  callable w c →
  run (call_once c (SetFps fps)) w =
    Ok (set_client c (Returned RVoid)
          (set_timer (set_fps fps (timer w)) (set_client c (SetFpsEntry fps) w))).
Proof.
  intros Hc. unfold call_once, run.
  rewrite (callable_call _ _ _ Hc).
  destruct Hc as [H | [v H]];
    simpl; by rewrite list_lookup_insert_eq by (by eapply lookup_lt_Some).
Qed.

Lemma run_get_render_interval w c :
  callable w c →
  run (call_once c GetRenderInterval) w =
    Ok (set_client c (Returned (RInt (get_render_interval (timer w))))
          (set_client c GetEntry w)).
Proof.
  intros Hc. unfold call_once, run.
  rewrite (callable_call _ _ _ Hc).
  destruct Hc as [H | [v H]];
    simpl; by rewrite list_lookup_insert_eq by (by eapply lookup_lt_Some).
Qed.

Lemma run_cons l sched w :
  run (l :: sched) w =
    match step l w with
    | Ok w' => run sched w'
    | Blocked => Blocked
    | Fault => Fault
    end.
Proof. reflexivity. Qed.

Lemma run_app s1 s2 w :
  run (s1 ++ s2) w =
    match run s1 w with
    | Ok w' => run s2 w'
    | Blocked => Blocked
    | Fault => Fault
    end.
Proof.
  revert w. induction s1 as [| l s1 IH]; intros w; simpl; [done |].
  destruct (step l w); auto.
Qed.

Lemma callable_lt w c : callable w c → c < length (clients w).
Proof. intros [H | [v H]]; by eapply lookup_lt_Some. Qed.

Lemma callable_returned w c v l :
  clients w = <[c := Returned v]> l → c < length l → callable w c.
Proof.
  intros Hw Hlt. right. exists v. rewrite Hw. by apply list_lookup_insert_eq.
Qed.

(** C1 (as amended).  For every positive frequency F, a client that
    calls set_fps(F) and then get_render_interval() gets 1000 / F
    (truncated), in any world, whether the loop runs or not, provided
    F differs from the stored frequency or the interval still agrees
    with the stored frequency. *)
Theorem set_fps_then_get_render_interval (w : world) (c : nat) (F : Z) :
  callable w c →
  (0 < F)%Z →
  F ≠ m_fps (timer w) ∨ consistent (timer w) →
  ∃ w', run (call_once c (SetFps F) ++ call_once c GetRenderInterval) w = Ok w'
        ∧ at_pc w' c (Returned (RInt (1000 `quot` F)%Z)).
Proof.
  intros Hc Hpos Hcase.
  rewrite run_app, run_set_fps by done.
  pose proof (callable_lt _ _ Hc) as Hlt.
  rewrite run_get_render_interval
    by (eapply callable_returned; [reflexivity | simpl; by rewrite length_insert]).
  eexists. split; [reflexivity |].
  unfold at_pc. simpl.
  rewrite list_lookup_insert_eq by (by rewrite !length_insert).
  do 3 f_equal. unfold get_render_interval.
  destruct (decide (F = m_fps (timer w))) as [-> | Hne].
  - destruct Hcase as [? | Hcons]; [done |].
    rewrite set_fps_ignored by auto. exact Hcons.
  - by rewrite set_fps_accepted.
Qed.

Lemma set_fps_then_get_render_interval_witness :
  callable (init 1 0) 0 ∧ (0 < 30)%Z ∧
  ∃ w', run (call_once 0 (SetFps 30) ++ call_once 0 GetRenderInterval) (init 1 0) = Ok w'
        ∧ at_pc w' 0 (Returned (RInt 33)).
Proof.
  split; [left; reflexivity |]. split; [lia |].
  apply (set_fps_then_get_render_interval (init 1 0) 0 30).
  - left; reflexivity.
  - lia.
  - left. simpl. lia.
Defined.

(** C1, counterexample.  After one loop iteration that took 20 ms the
    interval is 12; set_fps(60) is then ignored (60 is the stored
    frequency) and get_render_interval() returns 12, not 1000 / 60. *)
Lemma set_fps_same_frequency_after_overrun :
  ∃ w w', run overrun_sched (init 1 0) = Ok w
          ∧ m_running (timer w) = true
          ∧ (0 < 60)%Z
          ∧ run (call_once 0 (SetFps 60) ++ call_once 0 GetRenderInterval) w = Ok w'
          ∧ at_pc w' 0 (Returned (RInt 12))
          ∧ (1000 `quot` 60)%Z = 16%Z.
Proof. do 2 eexists. vm_compute. repeat split. Qed.

(** C2.  set_fps with a non-positive frequency, or with the stored
    frequency, changes nothing: the object is the same, and so are the
    stored frequency and what get_render_interval returns. *)
Theorem set_fps_rejected_is_noop (t : render_timer) (F : Z) :
  (F ≤ 0)%Z ∨ F = m_fps t →
  set_fps F t = t
  ∧ m_fps (set_fps F t) = m_fps t
  ∧ get_render_interval (set_fps F t) = get_render_interval t.
Proof. intros H. by rewrite set_fps_ignored. Qed.

Lemma set_fps_rejected_is_noop_witness :
  ((0 ≤ 0)%Z ∨ 0%Z = m_fps (set_fps 30 (render_timer_new 0)))
  ∧ get_render_interval (set_fps 0 (set_fps 30 (render_timer_new 0))) = 33%Z.
Proof.
  split; [left; lia |].
  pose proof (set_fps_rejected_is_noop (set_fps 30 (render_timer_new 0)) 0) as H.
  destruct H as (_ & _ & ->); [left; lia | reflexivity].
Defined.

(** ** The interval under the steps of the world *)

(** Only two actions write the configuration: the body of [set_fps]
    and the correction at the end of a loop iteration. *)
Lemma step_config l w w' :
  step l w = Ok w' →
  (m_fps (timer w') = m_fps (timer w)
   ∧ m_render_interval (timer w') = m_render_interval (timer w))
  ∨ (∃ c fps, l = Step c ∧ at_pc w c (SetFpsEntry fps)
              ∧ timer w' = set_fps fps (timer w))
  ∨ (∃ frame_start, l = LoopStep ∧ loop_at w (LMeasure frame_start)
       ∧ timer w' = with_thread (m_thread (timer w'))
                      (correct_interval (frame_duration w frame_start) (timer w))).
Proof.
  intros H. destruct l as [t op | t | | dt]; simpl in H.
  - repeat case_match; simplify_eq; left; done.
  - destruct (clients w !! t) as [pc |] eqn:Hpc; [| done].
    destruct pc; simpl in H; repeat case_match; simplify_eq; simpl;
      try (left; done).
    right; left. eauto.
  - unfold loop_step in H.
    destruct (m_thread (timer w)) as [| pc] eqn:Hth; [done |].
    destruct pc; simpl in H; repeat case_match; simplify_eq; simpl;
      try (left; done).
    + right; right. eexists. split; [done |]. split; [done |]. done.
    + right; right. eexists. split; [done |]. split; [done |]. done.
  - case_bool_decide; simplify_eq. left; done.
Qed.

(** The interval is an [int] in every world the program can reach. *)
Lemma set_fps_in_range fps t :
  Int.in_range (m_render_interval t) →
  Int.in_range (m_render_interval (set_fps fps t)).
Proof.
  intros Hr. unfold set_fps.
  destruct (bool_decide (0 < fps)%Z) eqn:Hpos; [| done].
  apply bool_decide_eq_true_1 in Hpos.
  case_match; [| done]. simpl.
  pose proof (Z.quot_pos 1000 fps) as Hlo.
  pose proof (Z.quot_le_upper_bound 1000 fps 1000) as Hhi.
  unfold Int.in_range, Int.int_min, Int.int_max. split; [lia | nia].
Qed.

Lemma correct_interval_in_range d t :
  Int.in_range (m_render_interval t) →
  Int.in_range (m_render_interval (correct_interval d t)).
Proof.
  intros Hr. unfold correct_interval. case_match; [| done].
  simpl. apply to_int_in_range.
Qed.

Lemma step_interval_in_range l w w' :
  step l w = Ok w' →
  Int.in_range (m_render_interval (timer w)) →
  Int.in_range (m_render_interval (timer w')).
Proof.
  intros Hstep Hr.
  destruct (step_config _ _ _ Hstep)
    as [[_ Hi] | [(c & fps & _ & _ & Ht) | (s & _ & _ & Ht)]].
  - by rewrite Hi.
  - rewrite Ht. by apply set_fps_in_range.
  - rewrite Ht. simpl. by apply correct_interval_in_range.
Qed.

Lemma run_interval_in_range sched n now w :
  run sched (init n now) = Ok w → Int.in_range (m_render_interval (timer w)).
Proof.
  assert (∀ w0, Int.in_range (m_render_interval (timer w0)) →
                run sched w0 = Ok w →
                Int.in_range (m_render_interval (timer w))) as Hgen.
  { induction sched as [| l sched IH]; intros w0 Hr Hrun.
    - simpl in Hrun. by simplify_eq.
    - rewrite run_cons in Hrun.
      destruct (step l w0) as [w1 | |] eqn:Hstep; try done.
      apply (IH w1); [| done]. by eapply step_interval_in_range. }
  apply Hgen. vm_compute. split; discriminate.
Qed.

Lemma set_fps_consistent fps t : consistent t → consistent (set_fps fps t).
Proof.
  intros Hc. unfold set_fps. case_match; [| done]. reflexivity.
Qed.

Lemma set_fps_changes_fps fps t :
  m_fps (set_fps fps t) ≠ m_fps t → consistent (set_fps fps t).
Proof.
  unfold set_fps. case_match; [| done]. intros _. reflexivity.
Qed.

Lemma correct_interval_fps d t : m_fps (correct_interval d t) = m_fps t.
Proof. unfold correct_interval. by case_match. Qed.

(** An example of the correction at work: 16, 12, 4, -12. *)
Example sustained_overrun_goes_negative :
  ∃ w, run sustained_overrun_sched (init 1 0) = Ok w
       ∧ get_render_interval (timer w) = (-12)%Z.
Proof. eexists. vm_compute. split; reflexivity. Qed.

(** C3 (as amended).  In every execution, when the loop takes its
    reading: if the work duration d exceeds the interval i, the loop
    stores i - (d - i) into the int interval; the stored value is
    exactly i - (d - i) when that is at least INT_MIN and differs from
    it (the store wraps modulo 2^32) when it is below; if d does not
    exceed i, the interval is unchanged.  There is no floor above
    INT_MIN: every int value below i is the outcome of one
    correction. *)
Theorem timer_loop_correction (sched : list label) (n : nat) (now : Z)
    (w : world) (frame_start : Z) :
  run sched (init n now) = Ok w →
  loop_at w (LMeasure frame_start) →
  ∃ w', step LoopStep w = Ok w' ∧
    let i := m_render_interval (timer w) in
    let d := frame_duration w frame_start in
    ((i < d)%Z →
       m_render_interval (timer w') = Int.to_int (i - (d - i))
       ∧ ((Int.int_min ≤ i - (d - i))%Z →
            m_render_interval (timer w') = (i - (d - i))%Z)
       ∧ ((i - (d - i) < Int.int_min)%Z →
            m_render_interval (timer w') ≠ (i - (d - i))%Z))
    ∧ ((d ≤ i)%Z → m_render_interval (timer w') = i)
    ∧ (∀ v, (Int.int_min ≤ v < i)%Z →
         m_render_interval (correct_interval (i + (i - v)) (timer w)) = v).
Proof.
  intros Hreach Hat.
  pose proof (run_interval_in_range _ _ _ _ Hreach) as Hrange.
  unfold loop_at in Hat.
  unfold step, loop_step. rewrite Hat.
  eexists. split; [reflexivity |]. cbv zeta.
  split; [| split].
  - intros Hover. simpl.
    rewrite correct_interval_overrun by done. simpl.
    split; [reflexivity |]. split.
    + intros Hmin. apply to_int_id. unfold Int.in_range in *. lia.
    + intros Hwrap Heq.
      pose proof (to_int_in_range
                    (m_render_interval (timer w)
                     - (frame_duration w frame_start
                        - m_render_interval (timer w)))) as [Hlo _].
      lia.
  - intros Hin. simpl. by rewrite correct_interval_in_time.
  - intros v Hv. rewrite correct_interval_overrun by lia. simpl.
    replace (m_render_interval (timer w)
             - (m_render_interval (timer w) + (m_render_interval (timer w) - v)
                - m_render_interval (timer w)))%Z with v by lia.
    apply to_int_id. unfold Int.in_range in *. lia.
Qed.

Lemma timer_loop_correction_witness :
  ∃ w, run (start_sched 0 ++ loop_tick ++ [Elapse (Chrono.milliseconds 20)])
           (init 1 0) = Ok w
       ∧ loop_at w (LMeasure 0)
       ∧ frame_duration w 0 = 20%Z
       ∧ ∃ w', step LoopStep w = Ok w' ∧ m_render_interval (timer w') = 12%Z.
Proof.
  eexists. split; [vm_compute; reflexivity |].
  split; [reflexivity |]. split; [reflexivity |].
  match goal with
  | |- ∃ w', step LoopStep ?w = _ ∧ _ =>
      destruct (timer_loop_correction
                  (start_sched 0 ++ loop_tick ++ [Elapse (Chrono.milliseconds 20)])
                  1 0 w 0)
        as (w' & Hstep & Hover & _ & _);
        [vm_compute; reflexivity | reflexivity |]
  end.
  exists w'. split; [exact Hstep |].
  destruct Hover as (_ & Hexact & _); [vm_compute; reflexivity |].
  apply Hexact. vm_compute. discriminate.
Defined.

(** C3, counterexample.  Under sustained overrun of 20 ms per
    iteration the interval is 20 - 2^31 after twenty-nine iterations.
    The thirtieth iteration overruns as well (20 ms against a negative
    interval), but the interval it stores is 20, not
    i - (d - i) = 20 - 2^32: the interval has not been reduced by the
    overrun, it has risen. *)
Lemma sustained_overrun_wraps_around :
  ∃ w w', run wrapping_overrun_sched (init 1 0) = Ok w
          ∧ loop_at w (LMeasure (Chrono.milliseconds 580))
          ∧ m_render_interval (timer w) = (-2147483628)%Z
          ∧ frame_duration w (Chrono.milliseconds 580) = 20%Z
          ∧ step LoopStep w = Ok w'
          ∧ m_render_interval (timer w') = 20%Z
          ∧ (20 ≠ -2147483628 - (20 - -2147483628))%Z
          ∧ (m_render_interval (timer w) < m_render_interval (timer w'))%Z.
Proof.
  do 2 eexists.
  split; [vm_compute; reflexivity |].
  split; [reflexivity |]. split; [reflexivity |]. split; [reflexivity |].
  split; [vm_compute; reflexivity |].
  split; [reflexivity |]. split; [lia |]. vm_compute. reflexivity.
Qed.

(** C4 (as amended).  The interval agrees with the stored frequency at
    construction; a step that changes the frequency leaves them in
    agreement (the interval is recomputed); every step keeps them in
    agreement, whatever the loop is about to do, except the correction
    step of a loop iteration that overruns; and that step leaves the
    frequency as it is and stores i - (d - i) in the interval, which
    is lower than i unless the store wraps, so that it breaks the
    agreement. *)
Theorem interval_consistency :
  (∀ now, consistent (render_timer_new now))
  ∧ (∀ l w w', step l w = Ok w' →
       m_fps (timer w') ≠ m_fps (timer w) → consistent (timer w'))
  ∧ (∀ l w w', step l w = Ok w' →
       consistent (timer w) → (l = LoopStep → ¬ overruns w) →
       consistent (timer w'))
  ∧ (∀ w w' frame_start, step LoopStep w = Ok w' →
       loop_at w (LMeasure frame_start) →
       (m_render_interval (timer w) < frame_duration w frame_start)%Z →
       let i := m_render_interval (timer w) in
       let d := frame_duration w frame_start in
       m_fps (timer w') = m_fps (timer w)
       ∧ m_render_interval (timer w') = Int.to_int (i - (d - i))
       ∧ (Int.in_range i → (Int.int_min ≤ i - (d - i))%Z →
          (m_render_interval (timer w') < i)%Z
          ∧ (consistent (timer w) → ¬ consistent (timer w')))).
Proof.
  split; [| split; [| split]].
  - intros now. reflexivity.
  - intros l w w' Hstep Hfps.
    destruct (step_config _ _ _ Hstep)
      as [[Hf _] | [(c & fps & _ & _ & Ht) | (s & _ & _ & Ht)]].
    + done.
    + rewrite Ht in *. by apply set_fps_changes_fps.
    + rewrite Ht in Hfps. simpl in Hfps. by rewrite correct_interval_fps in Hfps.
  - intros l w w' Hstep Hcons Hno.
    destruct (step_config _ _ _ Hstep)
      as [[Hf Hi] | [(c & fps & _ & _ & Ht) | (s & Hl & Hat & Ht)]].
    + unfold consistent in *. by rewrite Hf, Hi.
    + rewrite Ht. by apply set_fps_consistent.
    + rewrite Ht. unfold consistent. simpl.
      rewrite correct_interval_in_time; [exact Hcons |].
      destruct (decide (frame_duration w s ≤ m_render_interval (timer w))%Z);
        [done |].
      exfalso. apply (Hno Hl). exists s. split; [done | lia].
  - intros w w' fs Hstep Hat Hover. cbv zeta.
    unfold loop_at in Hat. unfold step, loop_step in Hstep.
    rewrite Hat in Hstep. simplify_eq. simpl.
    rewrite correct_interval_overrun by done. simpl.
    split; [done |]. split; [done |].
    intros Hrange Hmin.
    rewrite to_int_id by (unfold Int.in_range in *; lia).
    split; [lia |].
    unfold consistent. simpl. intros Hcons. lia.
Qed.

Lemma interval_consistency_witness :
  consistent (render_timer_new 0)
  ∧ (∃ w w', run set_fps_before_overrun_sched (init 1 0) = Ok w
             ∧ overruns w ∧ consistent (timer w)
             ∧ step (Step 0) w = Ok w'
             ∧ m_fps (timer w') = 30%Z ∧ consistent (timer w'))
  ∧ (∃ w w', run set_fps_before_overrun_sched (init 1 0) = Ok w
             ∧ step LoopStep w = Ok w'
             ∧ m_fps (timer w') = 60%Z
             ∧ (m_render_interval (timer w') < 16)%Z
             ∧ ¬ consistent (timer w')).
Proof.
  destruct interval_consistency as (Hnew & Hchange & Hkeep & Hbreak).
  split; [apply Hnew |]. split.
  - do 2 eexists. split; [vm_compute; reflexivity |].
    split; [exists 0%Z; split; [reflexivity | vm_compute; reflexivity] |].
    split; [reflexivity |]. split; [vm_compute; reflexivity |].
    split; [reflexivity |].
    match goal with
    | |- consistent (timer ?w') =>
        match type of Hkeep with
        | _ =>
            apply (Hkeep (Step 0)
                     (mk_world
                        (mk_render_timer 60 16 true 0 false true
                           (Joinable (LMeasure 0)))
                        [SetFpsEntry 30] 20000000 1 1) w');
              [reflexivity | reflexivity | discriminate]
        end
    end.
  - do 2 eexists. split; [vm_compute; reflexivity |].
    split; [vm_compute; reflexivity |].
    match goal with
    | |- m_fps (timer ?w') = _ ∧ _ =>
        destruct (Hbreak
                    (mk_world
                       (mk_render_timer 60 16 true 0 false true
                          (Joinable (LMeasure 0)))
                       [SetFpsEntry 30] 20000000 1 1) w' 0%Z)
          as (Hfps & _ & Hlow);
          [vm_compute; reflexivity | reflexivity | vm_compute; reflexivity |]
    end.
    split; [exact Hfps |].
    destruct Hlow as [Hlt Hinc]; [vm_compute; split; discriminate
                                 | vm_compute; discriminate |].
    split; [exact Hlt |]. apply Hinc. reflexivity.
Defined.

(** C4, counterexample.  After a loop iteration that took 20 ms the
    stored frequency is still 60 but the interval is 12. *)
Lemma interval_inconsistent_after_overrun :
  ∃ w, run overrun_sched (init 1 0) = Ok w
       ∧ m_fps (timer w) = 60%Z
       ∧ m_render_interval (timer w) = 12%Z
       ∧ ¬ consistent (timer w).
Proof.
  eexists. split; [vm_compute; reflexivity |].
  repeat split. vm_compute. discriminate.
Qed.

(** ** [can_render] *)

Lemma step_at w c pc : at_pc w c pc → step (Step c) w = client_step c pc w.
Proof. unfold at_pc. intros H. simpl. by rewrite H. Qed.

Lemma at_pc_set_client w c pc :
  c < length (clients w) → at_pc (set_client c pc w) c pc.
Proof. intros H. unfold at_pc. simpl. by apply list_lookup_insert_eq. Qed.

(** Entered with the flag clear and the mutex free, [can_render] ends
    up blocked on the condition variable, and it is the predicate that
    has set the flag. *)
Lemma run_can_render_blocks w c :
  callable w c → m_render_ready (timer w) = false → m_mutex (timer w) = false →
  run (can_render_sched c) w =
    Ok (mk_world (with_render_ready true (timer w)) (<[c := CrBlocked]> (clients w))
                 (clock w) (ticks w) (launched w)).
Proof.
  intros Hc Hready Hmutex. pose proof (callable_lt _ _ Hc) as Hlt.
  unfold can_render_sched.
  rewrite run_cons, (callable_call _ _ _ Hc).
  rewrite run_cons, (step_at _ c CrLock) by (by apply at_pc_set_client).
  cbn [client_step entry timer set_client]. rewrite Hmutex.
  rewrite run_cons, (step_at _ c CrPred)
    by (apply at_pc_set_client; simpl; by rewrite length_insert).
  cbn [client_step test_and_set timer set_client set_timer with_mutex m_render_ready].
  rewrite Hready.
  rewrite run_cons, (step_at _ c CrEnterWait)
    by (apply at_pc_set_client; simpl; by rewrite !length_insert).
  simpl. f_equal. unfold set_client, set_timer. simpl.
  rewrite !list_insert_insert_eq.
  destruct w as [[] ? ? ? ?]; simpl in *; by subst.
Qed.

(** Entered with the flag set and the mutex free, [can_render] returns
    true at once and leaves the flag clear. *)
Lemma run_can_render_passes w c :
  callable w c → m_render_ready (timer w) = true → m_mutex (timer w) = false →
  run (can_render_sched c) w =
    Ok (mk_world (with_render_ready false (timer w))
                 (<[c := Returned (RBool true)]> (clients w))
                 (clock w) (ticks w) (launched w)).
Proof.
  intros Hc Hready Hmutex. pose proof (callable_lt _ _ Hc) as Hlt.
  unfold can_render_sched.
  rewrite run_cons, (callable_call _ _ _ Hc).
  rewrite run_cons, (step_at _ c CrLock) by (by apply at_pc_set_client).
  cbn [client_step entry timer set_client]. rewrite Hmutex.
  rewrite run_cons, (step_at _ c CrPred)
    by (apply at_pc_set_client; simpl; by rewrite length_insert).
  cbn [client_step test_and_set timer set_client set_timer with_mutex m_render_ready].
  rewrite Hready.
  rewrite run_cons, (step_at _ c CrClear)
    by (apply at_pc_set_client; simpl; by rewrite !length_insert).
  simpl. f_equal. unfold set_client, set_timer. simpl.
  rewrite !list_insert_insert_eq.
  destruct w as [[] ? ? ? ?]; simpl in *; by subst.
Qed.

(** C10.  The predicate of the wait is a test-and-set: evaluated on a
    clear flag it answers false and leaves the flag set.  So a client
    that enters can_render with the flag clear blocks and leaves the
    flag set, and a second client that enters next returns true at
    once, while the first is still blocked and the loop has produced
    no tick. *)
Theorem second_waiter_passes (w : world) (a b : nat) :
  a ≠ b → callable w a → callable w b →
  m_render_ready (timer w) = false → m_mutex (timer w) = false →
  test_and_set (timer w) = (false, with_render_ready true (timer w))
  ∧ ∃ w1 w2,
      run (can_render_sched a) w = Ok w1
      ∧ at_pc w1 a CrBlocked
      ∧ m_render_ready (timer w1) = true
      ∧ run (can_render_sched b) w1 = Ok w2
      ∧ at_pc w2 b (Returned (RBool true))
      ∧ at_pc w2 a CrBlocked
      ∧ ticks w2 = ticks w
      ∧ m_thread (timer w2) = m_thread (timer w).
Proof.
  intros Hab Ha Hb Hready Hmutex.
  split; [unfold test_and_set; by rewrite Hready |].
  pose proof (callable_lt _ _ Ha) as Hla.
  pose proof (callable_lt _ _ Hb) as Hlb.
  do 2 eexists.
  split; [by apply run_can_render_blocks |].
  split; [unfold at_pc; simpl; by apply list_lookup_insert_eq |].
  split; [reflexivity |].
  split.
  { apply run_can_render_passes; simpl.
    - unfold callable in *. simpl.
      rewrite list_lookup_insert_ne by done. exact Hb.
    - reflexivity.
    - destruct w as [[] ? ? ? ?]; simpl in *; by subst. }
  unfold at_pc. simpl.
  split; [apply list_lookup_insert_eq; by rewrite length_insert |].
  split; [rewrite list_lookup_insert_ne by done; by apply list_lookup_insert_eq |].
  done.
Qed.

Lemma second_waiter_passes_witness :
  ∃ w1 w2,
    run (can_render_sched 0) (init 2 0) = Ok w1
    ∧ at_pc w1 0 CrBlocked
    ∧ run (can_render_sched 1) w1 = Ok w2
    ∧ at_pc w2 1 (Returned (RBool true))
    ∧ ticks w2 = 0.
Proof.
  destruct (second_waiter_passes (init 2 0) 0 1)
    as (_ & w1 & w2 & H1 & H2 & _ & H3 & H4 & _ & H5 & _).
  - lia.
  - left; reflexivity.
  - left; reflexivity.
  - reflexivity.
  - reflexivity.
  - exists w1, w2. repeat split; assumption.
Defined.

(** ** The readiness flag *)





(** A client woken without notification that finds the flag set (as
    its own predicate left it) returns true. *)
Lemma spurious_wake_returns w c :
  at_pc w c CrBlocked → m_render_ready (timer w) = true →
  m_mutex (timer w) = false →
  ∃ w', ev_run (spurious_resume c) w = Ok w'
        ∧ at_pc w' c (Returned (RBool true))
        ∧ ticks w' = ticks w.
Proof.
  unfold at_pc. intros Hat Hready Hmutex.
  pose proof (lookup_lt_Some _ _ _ Hat) as Hlt.
  unfold spurious_resume, resume_sched. simpl. unfold spurious_wake.
  rewrite Hat. simpl.
  rewrite list_lookup_insert_eq by done. simpl. rewrite Hmutex.
  simpl. rewrite list_lookup_insert_eq by (by rewrite length_insert).
  simpl. rewrite Hready.
  simpl. rewrite list_lookup_insert_eq by (by rewrite !length_insert).
  simpl. eexists. split; [reflexivity |]. simpl.
  split; [| done].
  apply list_lookup_insert_eq. by rewrite !length_insert.
Qed.




(** ** [stop] and the blocked clients *)

Ltac evaluate := vm_compute; reflexivity.

Lemma quiescent_step l w w' :
  quiescent w → is_call l = false → step l w = Ok w' →
  quiescent w' ∧ clients w' = clients w.
Proof.
  intros [Hth Hparked] Hl Hstep.
  destruct l as [t op | t | | dt]; simpl in Hstep; [done | | |].
  - destruct (clients w !! t) as [pc |] eqn:Hpc; [| done].
    pose proof (Forall_lookup_1 _ _ _ _ Hparked Hpc) as Hp.
    destruct pc; simpl in Hp; try done; by simpl in Hstep.
  - unfold loop_step in Hstep. by rewrite Hth in Hstep.
  - case_bool_decide; simplify_eq. done.
Qed.

(** In a quiescent world a blocked client stays blocked for as long as
    nobody makes a new call. *)
Lemma quiescent_hang sched w w' c :
  quiescent w → at_pc w c CrBlocked →
  forallb (λ l, negb (is_call l)) sched = true →
  run sched w = Ok w' → at_pc w' c CrBlocked.
Proof.
  revert w. induction sched as [| l sched IH]; intros w Hq Hc Hs Hrun.
  - simpl in Hrun. by simplify_eq.
  - simpl in Hs. apply andb_prop in Hs as [Hl Hs].
    apply negb_true_iff in Hl.
    rewrite run_cons in Hrun.
    destruct (step l w) as [w1 | |] eqn:Hstep; try done.
    destruct (quiescent_step _ _ _ Hq Hl Hstep) as [Hq1 Hcl].
    apply (IH w1); try done. unfold at_pc in *. by rewrite Hcl.
Qed.

(** C6, the failing scenario evaluated.  Clients 1 and 2 are both
    blocked in can_render when client 0 calls stop.  stop returns with
    the loop joined; client 1 returns true; client 2, woken by the
    same notify_all, finds the flag cleared by client 1, sets it and
    blocks again.  From then on no thread can move, and client 2 stays
    blocked however long one waits, until somebody makes a new call. *)
Theorem stop_leaves_a_waiter_blocked :
  ∃ w0 w,
    run two_blocked_sched (init 3 0) = Ok w0
    ∧ m_running (timer w0) = true
    ∧ at_pc w0 1 CrBlocked ∧ at_pc w0 2 CrBlocked
    ∧ run (stop_sched 0 ++ resume_sched 1 ++ resume_sched 2) w0 = Ok w
    ∧ at_pc w 0 (Returned RVoid)
    ∧ at_pc w 1 (Returned (RBool true))
    ∧ at_pc w 2 CrBlocked
    ∧ quiescent w
    ∧ ∀ sched w',
        forallb (λ l, negb (is_call l)) sched = true →
        run sched w = Ok w' → at_pc w' 2 CrBlocked.
Proof.
  do 2 eexists.
  split; [evaluate |]. split; [reflexivity |].
  split; [reflexivity |]. split; [reflexivity |].
  split; [evaluate |].
  split; [reflexivity |]. split; [reflexivity |].
  split; [reflexivity |].
  assert (quiescent
            (mk_world
               (mk_render_timer 60 16 false 0 false true NotJoinable)
               [Returned RVoid; Returned (RBool true); CrBlocked] 0 0 1)) as Hq.
  { split; [reflexivity |]. repeat constructor. }
  split; [exact Hq |].
  intros sched w' Hs Hrun.
  by eapply quiescent_hang.
Qed.

(** ** Restarting *)

(** No action of [start] or [stop] writes the readiness flag. *)
Lemma start_stop_keep_flag w w' c pc :
  at_pc w c pc → in_start_or_stop pc = true → step (Step c) w = Ok w' →
  m_render_ready (timer w') = m_render_ready (timer w).
Proof.
  intros Hat Hpc Hstep. rewrite (step_at _ _ _ Hat) in Hstep.
  destruct pc; try done; simpl in Hstep; repeat case_match; by simplify_eq.
Qed.

(** [start] on a stopped pacer launches a loop that stands at the top
    of its first iteration. *)
Lemma run_start w c :
  callable w c → m_running (timer w) = false → m_thread (timer w) = NotJoinable →
  run (start_sched c) w =
    Ok (mk_world
          (with_thread (Joinable LCheck)
             (with_start_time (clock w) (with_running true (timer w))))
          (<[c := Returned RVoid]> (clients w))
          (clock w) (ticks w) (S (launched w))).
Proof.
  intros Hc Hrun Hth. pose proof (callable_lt _ _ Hc) as Hlt.
  unfold start_sched.
  rewrite run_cons, (callable_call _ _ _ Hc).
  rewrite run_cons, (step_at _ c StartEntry) by (by apply at_pc_set_client).
  cbn [client_step entry exchange_running timer set_client]. rewrite Hrun.
  cbn [negb].
  rewrite run_cons, (step_at _ c StartLaunch)
    by (apply at_pc_set_client; simpl; by rewrite length_insert).
  simpl. rewrite Hth. f_equal.
  unfold set_client, count_launch, set_timer. simpl.
  by rewrite !list_insert_insert_eq.
Qed.

(** The first tick of a loop standing at the top of an iteration. *)
Lemma run_loop_tick w :
  loop_at w LCheck → m_running (timer w) = true → m_mutex (timer w) = false →
  ∃ w', run loop_tick w = Ok w'
        ∧ ticks w' = S (ticks w)
        ∧ m_render_ready (timer w') = true
        ∧ loop_at w' (LMeasure (clock w)).
Proof.
  unfold loop_at. intros Hat Hrun Hmutex.
  unfold loop_tick.
  rewrite run_cons. cbn [step]. unfold loop_step at 1. rewrite Hat, Hrun.
  rewrite run_cons. cbn [step]. unfold loop_step at 1. simpl. rewrite Hmutex.
  eexists. split; [reflexivity |]. done.
Qed.

(** C9 (as amended).  stop and start never write the readiness flag;
    start on a stopped pacer launches a new loop, leaves the flag as
    it was, and the new loop ticks again; so a flag left set across
    the stop is still set, and a can_render entered then returns true
    at once, before the new loop has produced a tick. *)
Theorem restart_keeps_readiness_flag :
  (∀ w w' c pc, at_pc w c pc → in_start_or_stop pc = true →
     step (Step c) w = Ok w' →
     m_render_ready (timer w') = m_render_ready (timer w))
  ∧ (∀ w c, callable w c →
       m_running (timer w) = false → m_thread (timer w) = NotJoinable →
       m_mutex (timer w) = false →
       ∃ w1 w2, run (start_sched c) w = Ok w1
                ∧ m_render_ready (timer w1) = m_render_ready (timer w)
                ∧ run loop_tick w1 = Ok w2
                ∧ ticks w2 = S (ticks w))
  ∧ (∀ w c c', callable w c → callable w c' →
       m_running (timer w) = false → m_thread (timer w) = NotJoinable →
       m_mutex (timer w) = false → m_render_ready (timer w) = true →
       ∃ w', run (start_sched c ++ can_render_sched c') w = Ok w'
             ∧ at_pc w' c' (Returned (RBool true))
             ∧ ticks w' = ticks w).
Proof.
  split; [exact start_stop_keep_flag |]. split.
  - intros w c Hc Hrun Hth Hmutex.
    destruct (run_loop_tick
                (mk_world
                   (with_thread (Joinable LCheck)
                      (with_start_time (clock w) (with_running true (timer w))))
                   (<[c := Returned RVoid]> (clients w))
                   (clock w) (ticks w) (S (launched w))))
      as (w2 & Htick & Hticks & _); try done.
    do 2 eexists. split; [by apply run_start |].
    split; [done |]. split; [exact Htick |]. exact Hticks.
  - intros w c c' Hc Hc' Hrun Hth Hmutex Hready.
    rewrite run_app, run_start by done.
    rewrite run_can_render_passes; try done.
    + eexists. split; [reflexivity |]. split; [| done].
      unfold at_pc. simpl. apply list_lookup_insert_eq.
      rewrite length_insert. by apply callable_lt.
    + unfold callable. simpl.
      destruct (decide (c = c')) as [-> | Hne].
      * right. exists RVoid. apply list_lookup_insert_eq. by apply callable_lt.
      * by rewrite list_lookup_insert_ne.
Qed.

Lemma restart_keeps_readiness_flag_witness :
  ∃ w w', run unconsumed_tick_then_stop_sched (init 2 0) = Ok w
          ∧ m_render_ready (timer w) = true
          ∧ run (start_sched 0 ++ can_render_sched 1) w = Ok w'
          ∧ at_pc w' 1 (Returned (RBool true))
          ∧ ticks w' = ticks w.
Proof.
  destruct restart_keeps_readiness_flag as (_ & _ & Hstale).
  eexists.
  match goal with
  | |- ∃ w', run ?s ?w0 = Ok ?w ∧ _ =>
      let r := eval vm_compute in (run s w0) in
      match r with
      | Ok ?w1 =>
          destruct (Hstale w1 0 1) as (w' & Hrun & Hat & Hticks);
            [right; eexists; reflexivity | left; reflexivity
            | reflexivity | reflexivity | reflexivity | reflexivity |];
          exists w'; split; [evaluate |];
          split; [reflexivity |]; split; [exact Hrun |];
          split; [exact Hat | exact Hticks]
      end
  end.
Defined.

(** C9, counterexample.  The loop produces a tick that nobody
    consumes; client 0 calls stop and then start; client 1 calls
    can_render and returns true at once, on the flag left over from
    before the stop: the new loop still stands at the top of its first
    iteration and the tick count is the one reached before the stop.
    The new loop then produces its first tick and client 1 returns a
    second time, with no time elapsed since the restart. *)
Lemma stale_ready_after_restart :
  ∃ w1 w2 w3,
    run unconsumed_tick_then_stop_sched (init 2 0) = Ok w1
    ∧ at_pc w1 0 (Returned RVoid)
    ∧ m_thread (timer w1) = NotJoinable
    ∧ m_render_ready (timer w1) = true
    ∧ ticks w1 = 1
    ∧ run (start_sched 0 ++ can_render_sched 1) w1 = Ok w2
    ∧ at_pc w2 1 (Returned (RBool true))
    ∧ loop_at w2 LCheck
    ∧ ticks w2 = 1
    ∧ run (can_render_sched 1 ++ loop_tick ++ resume_sched 1) w2 = Ok w3
    ∧ at_pc w3 1 (Returned (RBool true))
    ∧ ticks w3 = 2
    ∧ clock w3 = clock w1.
Proof.
  do 3 eexists.
  split; [evaluate |]. split; [reflexivity |]. split; [reflexivity |].
  split; [reflexivity |]. split; [reflexivity |].
  split; [evaluate |]. split; [reflexivity |]. split; [reflexivity |].
  split; [reflexivity |].
  split; [evaluate |]. repeat split.
Qed.

(** ** [stop] *)

Lemma in_start_wake pc : in_start (wake pc) = in_start pc.
Proof. by destruct pc. Qed.

Lemma no_start_pending_notify w :
  no_start_pending w → no_start_pending (notify_all w).
Proof.
  unfold no_start_pending. simpl. intros H.
  apply Forall_fmap. eapply Forall_impl; [exact H |].
  intros pc Hpc. simpl. by rewrite in_start_wake.
Qed.

Lemma set_fps_thread fps t : m_thread (set_fps fps t) = m_thread t.
Proof. unfold set_fps. by case_match. Qed.



Lemma with_running_same t : with_running (m_running t) t = t.
Proof. by destruct t. Qed.

Lemma set_timer_same w : set_timer (timer w) w = w.
Proof. by destruct w. Qed.



(** ** [start] *)

Lemma pending_launches_insert l t old new :
  l !! t = Some old →
  pending_launches (<[t := new]> l) + launching old
  = pending_launches l + launching new.
Proof.
  revert t. induction l as [| pc l IH]; intros t Ht; [done |].
  destruct t as [| t]; simpl in *.
  - simplify_eq. lia.
  - specialize (IH t Ht). lia.
Qed.

Lemma pending_launches_wake l :
  pending_launches (wake <$> l) = pending_launches l.
Proof.
  induction l as [| pc l IH]; [done |].
  rewrite fmap_cons. cbn [pending_launches]. rewrite IH. by destruct pc.
Qed.

Lemma pending_launches_replicate_idle n : pending_launches (replicate n Idle) = 0.
Proof. induction n as [| n IH]; [done |]. simpl. exact IH. Qed.

Lemma in_stop_wake pc : in_stop (wake pc) = in_stop pc.
Proof. by destruct pc. Qed.

Lemma no_stop_pending_notify w :
  no_stop_pending w → no_stop_pending (notify_all w).
Proof.
  unfold no_stop_pending. simpl. intros H.
  apply Forall_fmap. eapply Forall_impl; [exact H |].
  intros pc Hpc. simpl. by rewrite in_stop_wake.
Qed.

Lemma set_fps_running fps t : m_running (set_fps fps t) = m_running t.
Proof. unfold set_fps. by case_match. Qed.

Lemma correct_interval_running d t :
  m_running (correct_interval d t) = m_running t.
Proof. unfold correct_interval. by case_match. Qed.

Lemma single_loop_init n now : single_loop (init n now).
Proof.
  unfold single_loop, no_stop_pending, active_loops, loop_at. simpl.
  rewrite pending_launches_replicate_idle.
  split; [| done]. apply Forall_replicate. done.
Qed.

(** A client moves from [old] to [new], neither of them the launch
    position, and leaves the thread and the running flag alone. *)
Lemma single_loop_move w t old new tm' :
  clients w !! t = Some old →
  launching new = launching old → in_stop new = false →
  m_thread tm' = m_thread (timer w) → m_running tm' = m_running (timer w) →
  single_loop w → single_loop (set_client t new (set_timer tm' w)).
Proof.
  intros Hpc Hlaunch Hstop Hth Hrun (Hns & Hdone & Hcount & Hlaunched).
  pose proof (pending_launches_insert _ _ _ new Hpc) as Hins.
  unfold single_loop, no_stop_pending, active_loops, loop_at in *. simpl.
  rewrite Hth, Hrun.
  split; [by apply Forall_insert |]. split; [done |]. split; [lia | done].
Qed.

(** Without calls of [stop], a step never faults and keeps
    [single_loop]. *)
Lemma single_loop_step l w :
  single_loop w → is_stop_call l = false →
  step l w ≠ Fault ∧ ∀ w', step l w = Ok w' → single_loop w'.
Proof.
  intros Hinv Hl. pose proof Hinv as (Hns & Hdone & Hcount & Hlaunched).
  destruct l as [t op | t | | dt]; simpl.
  - split; [by repeat case_match |].
    intros w' Hstep.
    destruct (clients w !! t) as [pc |] eqn:Hpc; [| done].
    assert (w' = set_client t (entry op) (set_timer (timer w) w)) as ->
      by (destruct pc; by simplify_eq).
    eapply single_loop_move; try done; destruct pc, op; by simplify_eq.
  - destruct (clients w !! t) as [pc |] eqn:Hpc; [| done].
    pose proof (Forall_lookup_1 _ _ _ _ Hns Hpc) as Hp. simpl in Hp.
    destruct pc; try done; simpl;
      try (destruct (m_mutex (timer w)); [done |]);
      try (split; [done |]; intros w' Hstep; simplify_eq;
           eapply single_loop_move; try done;
           rewrite ?set_fps_thread, ?set_fps_running;
           try done; by case_match).
    + (* the exchange of [start] *)
      split; [done |]. intros w' Hstep. simplify_eq.
      pose proof (pending_launches_insert _ _ _
                    (if negb (m_running (timer w)) then StartLaunch
                     else Returned RVoid) Hpc) as Hins.
      unfold single_loop, no_stop_pending, active_loops, loop_at in *. simpl.
      split; [apply Forall_insert; [done | by destruct (m_running (timer w))] |].
      split; [done |]. split; [| done].
      destruct (m_running (timer w)); simpl in *; lia.
    + (* the launch *)
      pose proof (pending_launches_insert _ _ _ (Returned RVoid) Hpc) as Hins.
      unfold single_loop, no_stop_pending, active_loops, loop_at in *.
      simpl in Hins.
      destruct (m_thread (timer w)) as [| lpc] eqn:Hth.
      * split; [done |]. intros w' Hstep. simplify_eq. simpl.
        split; [by apply Forall_insert |]. split; [done |]. split; lia.
      * exfalso. destruct (m_running (timer w)); simpl in *; lia.
  - unfold loop_step.
    split; [by repeat case_match |].
    intros w' Hstep.
    unfold single_loop, no_stop_pending, active_loops, loop_at in *.
    destruct (m_thread (timer w)) as [| lpc] eqn:Hth; [done |].
    destruct lpc; simpl in Hstep;
      try (destruct (m_mutex (timer w)); [done |]);
      try (case_bool_decide; [| done]);
      simplify_eq; simpl;
      rewrite ?pending_launches_wake, ?correct_interval_running;
      try done.
    + (* the check of the running flag *)
      destruct (m_running (timer w)); simpl in *; [done | lia].
    + split; [| done]. by apply (no_stop_pending_notify w).
    + split; [done |]. split; [| done]. by case_bool_decide.
  - split; [by case_bool_decide |].
    intros w' Hstep. case_bool_decide; by simplify_eq.
Qed.

Lemma single_loop_run sched w :
  single_loop w → forallb (λ l, negb (is_stop_call l)) sched = true →
  run sched w ≠ Fault ∧ ∀ w', run sched w = Ok w' → single_loop w'.
Proof.
  revert w. induction sched as [| l sched IH]; intros w Hinv Hs.
  - simpl. split; [done |]. intros w' Hw. by simplify_eq.
  - simpl in Hs. apply andb_prop in Hs as [Hl Hs].
    apply negb_true_iff in Hl.
    destruct (single_loop_step l w Hinv Hl) as [Hnf Hok].
    rewrite run_cons.
    destruct (step l w) as [w1 | |] eqn:Hstep; [| done | done].
    apply IH; [by apply Hok | done].
Qed.

(** C8.  start decides by an exchange on the running flag: if the
    flag was up the call returns without touching anything else; if it
    was down the caller raises it and goes on to launch.  From
    construction, under every schedule of any number of clients in
    which nobody calls stop, the program never assigns to a joinable
    thread, at most one background thread is ever created, it never
    leaves timer_loop, and once the flag is up and no launch is
    pending exactly one exists. *)
Theorem start_launches_one_loop :
  (∀ w c, at_pc w c StartEntry → m_running (timer w) = true →
     step (Step c) w = Ok (set_client c (Returned RVoid) w))
  ∧ (∀ w c, at_pc w c StartEntry → m_running (timer w) = false →
       ∃ w', step (Step c) w = Ok w'
             ∧ m_running (timer w') = true ∧ at_pc w' c StartLaunch)
  ∧ (∀ n now sched,
       forallb (λ l, negb (is_stop_call l)) sched = true →
       run sched (init n now) ≠ Fault
       ∧ ∀ w, run sched (init n now) = Ok w →
           launched w ≤ 1
           ∧ launched w = active_loops w
           ∧ ¬ loop_at w LDone
           ∧ (m_running (timer w) = true →
              pending_launches (clients w) = 0 →
              launched w = 1 ∧ active_loops w = 1)).
Proof.
  split; [| split].
  - intros w c Hat Hrun. rewrite (step_at _ _ _ Hat). simpl. rewrite Hrun.
    simpl. rewrite <- Hrun, with_running_same, set_timer_same. done.
  - intros w c Hat Hrun. rewrite (step_at _ _ _ Hat). simpl. rewrite Hrun.
    eexists. split; [reflexivity |]. split; [done |].
    unfold at_pc in *. simpl. apply list_lookup_insert_eq.
    by eapply lookup_lt_Some.
  - intros n now sched Hs.
    destruct (single_loop_run sched (init n now) (single_loop_init n now) Hs)
      as [Hnf Hinv].
    split; [exact Hnf |].
    intros w Hw. destruct (Hinv w Hw) as (_ & Hdone & Hcount & Hlaunched).
    split; [| split; [done |]; split; [done |]].
    + rewrite Hlaunched. unfold active_loops. case_match; lia.
    + intros Hrun Hpending. rewrite Hrun, Hpending in Hcount.
      simpl in Hcount. lia.
Qed.

Lemma start_launches_one_loop_witness :
  ∃ w, run concurrent_start_sched (init 2 0) = Ok w
       ∧ at_pc w 0 (Returned RVoid) ∧ at_pc w 1 (Returned RVoid)
       ∧ launched w = 1 ∧ active_loops w = 1.
Proof.
  destruct start_launches_one_loop as (_ & _ & Hone).
  destruct (Hone 2 0%Z concurrent_start_sched) as [_ Hok]; [reflexivity |].
  match goal with
  | |- ∃ w, run ?s ?w0 = Ok w ∧ _ =>
      let r := eval vm_compute in (run s w0) in
      match r with
      | Ok ?w1 =>
          exists w1;
          destruct (Hok w1) as (_ & _ & _ & Hrun); [evaluate |];
          split; [evaluate |]; split; [reflexivity |]; split; [reflexivity |];
          apply Hrun; reflexivity
      end
  end.
Defined.

(** ** Further properties of the code *)

(** *** Invariants of schedules *)

Lemma run_invariant (P : world → Prop) sched w w' :
  (∀ l w1 w2, step l w1 = Ok w2 → P w1 → P w2) →
  P w → run sched w = Ok w' → P w'.
Proof.
  intros Hstep. revert w. induction sched as [| l sched IH]; intros w HP Hrun.
  - simpl in Hrun. by simplify_eq.
  - rewrite run_cons in Hrun.
    destruct (step l w) as [w1 | |] eqn:Hl; try done.
    apply (IH w1); [by eapply Hstep | done].
Qed.

Lemma run_invariant_on (ok : label → bool) (P : world → Prop) sched w w' :
  (∀ l w1 w2, ok l = true → step l w1 = Ok w2 → P w1 → P w2) →
  forallb ok sched = true →
  P w → run sched w = Ok w' → P w'.
Proof.
  intros Hstep. revert w. induction sched as [| l sched IH]; intros w Hs HP Hrun.
  - simpl in Hrun. by simplify_eq.
  - simpl in Hs. apply andb_prop in Hs as [Hl Hs].
    rewrite run_cons in Hrun.
    destruct (step l w) as [w1 | |] eqn:Hw1; try done.
    apply (IH w1); [done | by eapply Hstep | done].
Qed.

(** *** The stored frequency *)

Lemma set_fps_positive fps t : (0 < m_fps t)%Z → (0 < m_fps (set_fps fps t))%Z.
Proof.
  intros Hpos. unfold set_fps.
  destruct (bool_decide (0 < fps)%Z) eqn:Hfps; [| done].
  apply bool_decide_eq_true_1 in Hfps. by case_match.
Qed.

(** X1.  The stored frequency is positive in every world the program
    can reach: the constructor stores 60 and set_fps stores only
    positive values, so neither 1000 / m_fps ever divides by zero. *)
Theorem stored_frequency_positive (sched : list label) (n : nat) (now : Z)
    (w : world) :
  run sched (init n now) = Ok w → (0 < m_fps (timer w))%Z.
Proof.
  apply (run_invariant (λ w, (0 < m_fps (timer w))%Z)); [| done].
  intros l w1 w2 Hstep Hpos.
  destruct (step_config _ _ _ Hstep)
    as [[Hf _] | [(c & fps & _ & _ & Ht) | (s & _ & _ & Ht)]].
  - by rewrite Hf.
  - rewrite Ht. by apply set_fps_positive.
  - rewrite Ht. simpl. by rewrite correct_interval_fps.
Qed.

Lemma stored_frequency_positive_witness :
  ∃ w, run (call_once 0 (SetFps (-5)) ++ call_once 0 (SetFps 0)) (init 1 0) = Ok w
       ∧ (0 < m_fps (timer w))%Z.
Proof.
  eexists. split; [evaluate |].
  match goal with
  | |- (0 < m_fps (timer ?w))%Z =>
      apply (stored_frequency_positive
               (call_once 0 (SetFps (-5)) ++ call_once 0 (SetFps 0)) 1 0 w);
        evaluate
  end.
Defined.

(** X2.  set_fps composes as "the last positive argument wins": after
    set_fps(G) with G positive the stored frequency is G whatever was
    stored before, and calling set_fps twice with the same argument
    is the same as calling it once. *)
Theorem set_fps_last_positive_wins (t : render_timer) (F G : Z) :
  (0 < G)%Z →
  m_fps (set_fps G (set_fps F t)) = G
  ∧ set_fps G (set_fps G t) = set_fps G t.
Proof.
  intros HG. split.
  - destruct (decide (G = m_fps (set_fps F t))) as [Heq | Hne].
    + rewrite set_fps_ignored by auto. done.
    + by rewrite set_fps_accepted.
  - apply set_fps_ignored. right.
    destruct (decide (G = m_fps t)) as [Heq | Hne].
    + rewrite set_fps_ignored by auto. done.
    + by rewrite set_fps_accepted.
Qed.

Lemma set_fps_last_positive_wins_witness :
  (0 < 30)%Z ∧ m_fps (set_fps 30 (set_fps 144 (render_timer_new 0))) = 30%Z.
Proof.
  split; [lia |].
  apply (set_fps_last_positive_wins (render_timer_new 0) 144 30). lia.
Defined.

(** *** The sleep at the end of an iteration *)

(** X3.  When the loop takes its reading it does exactly one of three
    things: with work duration below the interval it sleeps for the
    difference and leaves the interval alone; with the two equal it
    goes straight to the next iteration, interval unchanged; after an
    overrun it corrects the interval and goes straight to the next
    iteration without sleeping. *)
Theorem measure_sleeps_or_corrects (w : world) (frame_start : Z) :
  loop_at w (LMeasure frame_start) →
  ∃ w', step LoopStep w = Ok w' ∧
    let i := m_render_interval (timer w) in
    let d := frame_duration w frame_start in
    ((d < i)%Z →
       loop_at w' (LSleep (clock w + Chrono.milliseconds (i - d)))
       ∧ m_render_interval (timer w') = i)
    ∧ (d = i → loop_at w' LCheck ∧ m_render_interval (timer w') = i)
    ∧ ((i < d)%Z →
         loop_at w' LCheck
         ∧ m_render_interval (timer w') = Int.to_int (i - (d - i))).
Proof.
  unfold loop_at. intros Hat.
  unfold step, loop_step. rewrite Hat.
  eexists. split; [reflexivity |]. cbv zeta. unfold sleep_duration.
  split; [| split].
  - intros Hlt. simpl.
    rewrite bool_decide_eq_true_2 by lia.
    by rewrite correct_interval_in_time by lia.
  - intros Heq. simpl.
    rewrite bool_decide_eq_false_2 by lia.
    by rewrite correct_interval_in_time by lia.
  - intros Hgt. simpl.
    rewrite bool_decide_eq_false_2 by lia.
    by rewrite correct_interval_overrun by lia.
Qed.

Lemma measure_sleeps_or_corrects_witness :
  ∃ w w', run (start_sched 0 ++ loop_tick ++ [Elapse (Chrono.milliseconds 5)])
              (init 1 0) = Ok w
          ∧ step LoopStep w = Ok w'
          ∧ loop_at w' (LSleep (Chrono.milliseconds 16))
          ∧ m_render_interval (timer w') = 16%Z.
Proof.
  eexists.
  match goal with
  | |- ∃ w', run ?s ?w0 = Ok ?w ∧ _ =>
      let r := eval vm_compute in (run s w0) in
      match r with
      | Ok ?w1 =>
          destruct (measure_sleeps_or_corrects w1 0) as (w' & Hstep & Hsleep & _);
            [reflexivity |];
          exists w'; split; [evaluate |]; split; [exact Hstep |];
          apply Hsleep; vm_compute; reflexivity
      end
  end.
Defined.

Lemma measure_goes_to_sleep w frame_start :
  loop_at w (LMeasure frame_start) →
  (frame_duration w frame_start < m_render_interval (timer w))%Z →
  ∃ w', step LoopStep w = Ok w'
        ∧ loop_at w' (LSleep (clock w
                              + Chrono.milliseconds
                                  (m_render_interval (timer w)
                                   - frame_duration w frame_start)))
        ∧ m_render_interval (timer w') = m_render_interval (timer w).
Proof.
  unfold loop_at. intros Hat Hlt.
  unfold step, loop_step. rewrite Hat.
  eexists. split; [reflexivity |]. unfold sleep_duration. simpl.
  rewrite bool_decide_eq_true_2 by lia.
  by rewrite correct_interval_in_time by lia.
Qed.

(** X4.  An iteration whose reading of the clock is not earlier than
    its frame_start, and whose work d stayed below the interval i,
    goes to sleep, asking sleep_for for i - d milliseconds counted
    from the reading; because d is the elapsed time truncated to whole
    milliseconds, that is at least what is left of the interval: the
    reading plus the sleep is not before frame_start + i milliseconds.
    (A reading earlier than frame_start, which a clock that is not
    steady allows, is outside the statement.) *)
Theorem sleep_completes_the_interval (w : world) (frame_start : Z) :
  loop_at w (LMeasure frame_start) →
  (frame_start ≤ clock w)%Z →
  (frame_duration w frame_start < m_render_interval (timer w))%Z →
  ∃ w' wake_at,
    step LoopStep w = Ok w'
    ∧ loop_at w' (LSleep wake_at)
    ∧ wake_at = (clock w
                 + Chrono.milliseconds (m_render_interval (timer w)
                                        - frame_duration w frame_start))%Z
    ∧ (frame_start + Chrono.milliseconds (m_render_interval (timer w)) ≤ wake_at)%Z
    ∧ m_render_interval (timer w') = m_render_interval (timer w).
Proof.
  intros Hat Hs Hlt.
  destruct (measure_goes_to_sleep w frame_start Hat Hlt)
    as (w' & Hstep & Hat' & Hint).
  exists w'. eexists. split; [exact Hstep |]. split; [exact Hat' |].
  split; [reflexivity |]. split; [| exact Hint].
  unfold frame_duration, Chrono.duration_cast_ms, Chrono.milliseconds,
    Chrono.ns_per_ms in *.
  pose proof (Z.mul_quot_le (clock w - frame_start) 1000000) as Hlo.
  lia.
Qed.

Lemma sleep_completes_the_interval_witness :
  ∃ w w' wake_at,
    run (start_sched 0 ++ loop_tick ++ [Elapse 5999999]) (init 1 0) = Ok w
    ∧ frame_duration w 0 = 5%Z
    ∧ step LoopStep w = Ok w'
    ∧ loop_at w' (LSleep wake_at)
    ∧ (Chrono.milliseconds 16 ≤ wake_at)%Z.
Proof.
  eexists.
  match goal with
  | |- ∃ w' wake_at, run ?s ?w0 = Ok ?w ∧ _ =>
      let r := eval vm_compute in (run s w0) in
      match r with
      | Ok ?w1 =>
          destruct (sleep_completes_the_interval w1 0)
            as (w' & wake_at & Hstep & Hat & _ & Hlo & _);
            [reflexivity | vm_compute; discriminate | vm_compute; reflexivity |];
          exists w', wake_at;
          split; [evaluate |]; split; [reflexivity |];
          split; [exact Hstep |]; split; [exact Hat | exact Hlo]
      end
  end.
Defined.

(** *** Waking the waiters *)

Lemma wake_not_blocked pc : wake pc ≠ CrBlocked.
Proof. by destruct pc. Qed.

Lemma wake_other pc : pc ≠ CrBlocked → wake pc = pc.
Proof. by destruct pc. Qed.

(** X5.  Both notify_all sites, the one after a tick and the one in
    stop, release every client blocked on the condition variable:
    afterwards no client is blocked, each one that was is ready to
    reacquire the mutex, and (for the loop's notify) the position of
    every other client is untouched. *)
Theorem notify_all_wakes_every_waiter :
  (∀ w frame_start, loop_at w (LNotify frame_start) →
     ∃ w', step LoopStep w = Ok w'
           ∧ (∀ c, ¬ at_pc w' c CrBlocked)
           ∧ (∀ c, at_pc w c CrBlocked → at_pc w' c CrWoken)
           ∧ (∀ c pc, at_pc w c pc → pc ≠ CrBlocked → at_pc w' c pc))
  ∧ (∀ w t, at_pc w t StopNotify →
       ∃ w', step (Step t) w = Ok w'
             ∧ (∀ c, ¬ at_pc w' c CrBlocked)
             ∧ (∀ c, at_pc w c CrBlocked → at_pc w' c CrWoken)).
Proof.
  split.
  - unfold loop_at, at_pc. intros w s Hat.
    unfold step, loop_step. rewrite Hat.
    eexists. split; [reflexivity |]. simpl.
    split; [| split].
    + intros c Hc. rewrite list_lookup_fmap in Hc.
      destruct (clients w !! c) as [pc |]; [| done].
      simpl in Hc. injection Hc as Hc. by apply wake_not_blocked in Hc.
    + intros c Hc. by rewrite list_lookup_fmap, Hc.
    + intros c pc Hc Hpc. rewrite list_lookup_fmap, Hc. simpl.
      by rewrite wake_other.
  - unfold at_pc. intros w t Hat. rewrite (step_at _ _ _ Hat). simpl.
    eexists. split; [reflexivity |]. simpl.
    pose proof (lookup_lt_Some _ _ _ Hat) as Hlt.
    split.
    + intros c Hc. destruct (decide (t = c)) as [-> | Hne].
      * rewrite list_lookup_insert_eq in Hc by (by rewrite length_fmap). done.
      * rewrite list_lookup_insert_ne, list_lookup_fmap in Hc by done.
        destruct (clients w !! c) as [pc |]; [| done].
        simpl in Hc. injection Hc as Hc. by apply wake_not_blocked in Hc.
    + intros c Hc.
      assert (t ≠ c) by (intros ->; congruence).
      by rewrite list_lookup_insert_ne, list_lookup_fmap, Hc.
Qed.

Lemma notify_all_wakes_every_waiter_witness :
  ∃ w w', run (two_blocked_sched ++ [LoopStep; LoopStep; LoopStep]) (init 3 0) = Ok w
          ∧ at_pc w 1 CrBlocked ∧ at_pc w 2 CrBlocked
          ∧ step LoopStep w = Ok w'
          ∧ at_pc w' 1 CrWoken ∧ at_pc w' 2 CrWoken.
Proof.
  destruct notify_all_wakes_every_waiter as [Hloop _].
  eexists.
  match goal with
  | |- ∃ w', run ?s ?w0 = Ok ?w ∧ _ =>
      let r := eval vm_compute in (run s w0) in
      match r with
      | Ok ?w1 =>
          destruct (Hloop w1 0%Z) as (w' & Hstep & _ & Hwoken & _);
            [reflexivity |];
          exists w'; split; [evaluate |];
          split; [reflexivity |]; split; [reflexivity |];
          split; [exact Hstep |];
          split; apply Hwoken; reflexivity
      end
  end.
Defined.

(** A released client that finds the flag set returns true and
    clears it. *)
Lemma run_resume_passes w c :
  at_pc w c CrWoken → m_render_ready (timer w) = true → m_mutex (timer w) = false →
  run (resume_sched c) w =
    Ok (mk_world (with_render_ready false (timer w))
                 (<[c := Returned (RBool true)]> (clients w))
                 (clock w) (ticks w) (launched w)).
Proof.
  intros Hat Hready Hmutex. pose proof (lookup_lt_Some _ _ _ Hat) as Hlt.
  unfold resume_sched.
  rewrite run_cons, (step_at _ c CrWoken) by done.
  cbn [client_step]. rewrite Hmutex.
  rewrite run_cons, (step_at _ c CrPred) by (by apply at_pc_set_client).
  cbn [client_step test_and_set timer set_client set_timer with_mutex m_render_ready].
  rewrite Hready.
  rewrite run_cons, (step_at _ c CrClear)
    by (apply at_pc_set_client; simpl; by rewrite !length_insert).
  simpl. f_equal. unfold set_client, set_timer. simpl.
  rewrite !list_insert_insert_eq.
  destruct w as [[] ? ? ? ?]; simpl in *; by subst.
Qed.

(** A released client that finds the flag clear sets it and blocks
    again. *)
Lemma run_resume_blocks w c :
  at_pc w c CrWoken → m_render_ready (timer w) = false → m_mutex (timer w) = false →
  run (resume_sched c) w =
    Ok (mk_world (with_render_ready true (timer w)) (<[c := CrBlocked]> (clients w))
                 (clock w) (ticks w) (launched w)).
Proof.
  intros Hat Hready Hmutex. pose proof (lookup_lt_Some _ _ _ Hat) as Hlt.
  unfold resume_sched.
  rewrite run_cons, (step_at _ c CrWoken) by done.
  cbn [client_step]. rewrite Hmutex.
  rewrite run_cons, (step_at _ c CrPred) by (by apply at_pc_set_client).
  cbn [client_step test_and_set timer set_client set_timer with_mutex m_render_ready].
  rewrite Hready.
  rewrite run_cons, (step_at _ c CrEnterWait)
    by (apply at_pc_set_client; simpl; by rewrite !length_insert).
  simpl. f_equal. unfold set_client, set_timer. simpl.
  rewrite !list_insert_insert_eq.
  destruct w as [[] ? ? ? ?]; simpl in *; by subst.
Qed.

(** X6.  One raised flag lets one released client through: of two
    clients released by the same notify_all, the first to run returns
    true and clears the flag, and the second finds it clear, sets it
    and blocks again, with no tick produced in between. *)
Theorem one_flag_releases_one_waiter (w : world) (a b : nat) :
  a ≠ b → at_pc w a CrWoken → at_pc w b CrWoken →
  m_render_ready (timer w) = true → m_mutex (timer w) = false →
  ∃ w', run (resume_sched a ++ resume_sched b) w = Ok w'
        ∧ at_pc w' a (Returned (RBool true))
        ∧ at_pc w' b CrBlocked
        ∧ m_render_ready (timer w') = true
        ∧ ticks w' = ticks w.
Proof.
  unfold at_pc. intros Hab Ha Hb Hready Hmutex.
  pose proof (lookup_lt_Some _ _ _ Ha) as Hla.
  pose proof (lookup_lt_Some _ _ _ Hb) as Hlb.
  rewrite run_app, run_resume_passes by done.
  rewrite run_resume_blocks.
  - eexists. split; [reflexivity |]. simpl.
    split; [rewrite list_lookup_insert_ne by done;
            by apply list_lookup_insert_eq |].
    split; [apply list_lookup_insert_eq; by rewrite length_insert |].
    done.
  - unfold at_pc. simpl. by rewrite list_lookup_insert_ne.
  - reflexivity.
  - destruct w as [[] ? ? ? ?]; simpl in *; by subst.
Qed.

Lemma one_flag_releases_one_waiter_witness :
  ∃ w w', run (two_blocked_sched ++ loop_tick) (init 3 0) = Ok w
          ∧ at_pc w 1 CrWoken ∧ at_pc w 2 CrWoken
          ∧ run (resume_sched 1 ++ resume_sched 2) w = Ok w'
          ∧ at_pc w' 1 (Returned (RBool true))
          ∧ at_pc w' 2 CrBlocked.
Proof.
  eexists.
  match goal with
  | |- ∃ w', run ?s ?w0 = Ok ?w ∧ _ =>
      let r := eval vm_compute in (run s w0) in
      match r with
      | Ok ?w1 =>
          destruct (one_flag_releases_one_waiter w1 1 2)
            as (w' & Hrun & Ha & Hb & _);
            [lia | reflexivity | reflexivity | reflexivity | reflexivity |];
          exists w'; split; [evaluate |];
          split; [reflexivity |]; split; [reflexivity |];
          split; [exact Hrun |]; split; [exact Ha | exact Hb]
      end
  end.
Defined.

(** *** The mutex *)

Lemma mutex_holders_insert l t old new :
  l !! t = Some old →
  mutex_holders (<[t := new]> l) + holds_mutex old
  = mutex_holders l + holds_mutex new.
Proof.
  revert t. induction l as [| pc l IH]; intros t Ht; [done |].
  destruct t as [| t]; simpl in *.
  - simplify_eq. lia.
  - specialize (IH t Ht). lia.
Qed.

Lemma mutex_holders_wake l : mutex_holders (wake <$> l) = mutex_holders l.
Proof.
  induction l as [| pc l IH]; [done |].
  rewrite fmap_cons. cbn [mutex_holders]. rewrite IH. by destruct pc.
Qed.

Lemma mutex_holders_replicate_idle n : mutex_holders (replicate n Idle) = 0.
Proof. induction n as [| n IH]; [done |]. simpl. exact IH. Qed.

Lemma mutex_holders_one l a pca :
  l !! a = Some pca → holds_mutex pca ≤ mutex_holders l.
Proof.
  revert a. induction l as [| x l IH]; intros a Ha; [done |].
  destruct a; simpl in *; simplify_eq; [lia |]. specialize (IH _ Ha). lia.
Qed.

Lemma mutex_holders_two l a b pca pcb :
  a ≠ b → l !! a = Some pca → l !! b = Some pcb →
  holds_mutex pca + holds_mutex pcb ≤ mutex_holders l.
Proof.
  revert a b. induction l as [| pc l IH]; intros a b Hab Ha Hb; [done |].
  destruct a as [| a], b as [| b]; simpl in *; simplify_eq.
  - pose proof (mutex_holders_one _ _ _ Hb). lia.
  - pose proof (mutex_holders_one _ _ _ Ha). lia.
  - assert (a ≠ b) as Hne by congruence. specialize (IH a b Hne Ha Hb). lia.
Qed.

Lemma set_fps_mutex fps t : m_mutex (set_fps fps t) = m_mutex t.
Proof. unfold set_fps. by case_match. Qed.

Lemma correct_interval_mutex d t : m_mutex (correct_interval d t) = m_mutex t.
Proof. unfold correct_interval. by case_match. Qed.

Lemma mutex_owned_step l w w' :
  step l w = Ok w' → mutex_owned w → mutex_owned w'.
Proof.
  unfold mutex_owned, loop_holds_mutex. intros Hstep Hinv.
  destruct l as [t op | t | | dt]; simpl in Hstep.
  - destruct (clients w !! t) as [pc |] eqn:Hpc; [| done].
    pose proof (mutex_holders_insert _ _ _ (entry op) Hpc) as Hins.
    assert (holds_mutex (entry op) = 0) as Hop by (by destruct op).
    destruct pc; simplify_eq; simpl in *; lia.
  - destruct (clients w !! t) as [pc |] eqn:Hpc; [| done].
    destruct pc; simpl in Hstep; try done.
    + (* StartEntry *)
      simplify_eq. simpl.
      pose proof (mutex_holders_insert _ _ _
                    (if negb (m_running (timer w)) then StartLaunch
                     else Returned RVoid) Hpc) as Hins.
      destruct (m_running (timer w)); simpl in *; lia.
    + (* StartLaunch *)
      destruct (m_thread (timer w)) eqn:Hth; simplify_eq. simpl.
      pose proof (mutex_holders_insert _ _ _ (Returned RVoid) Hpc) as Hins.
      simpl in *. lia.
    + (* StopEntry *)
      simplify_eq. simpl.
      pose proof (mutex_holders_insert _ _ _
                    (if m_running (timer w) then StopNotify
                     else Returned RVoid) Hpc) as Hins.
      destruct (m_running (timer w)); simpl in *; lia.
    + (* StopNotify *)
      simplify_eq. simpl.
      assert ((wake <$> clients w) !! t = Some StopNotify) as Hpc'
        by (by rewrite list_lookup_fmap, Hpc).
      pose proof (mutex_holders_insert _ _ _ StopJoin Hpc') as Hins.
      rewrite mutex_holders_wake in Hins. simpl in *. lia.
    + (* StopJoin *)
      destruct (m_thread (timer w)) as [| lpc] eqn:Hth; [done |].
      destruct lpc; simplify_eq. simpl.
      pose proof (mutex_holders_insert _ _ _ (Returned RVoid) Hpc) as Hins.
      simpl in *. lia.
    + (* SetFpsEntry *)
      simplify_eq. simpl. rewrite set_fps_thread, set_fps_mutex.
      pose proof (mutex_holders_insert _ _ _ (Returned RVoid) Hpc) as Hins.
      simpl in *. lia.
    + (* GetEntry *)
      simplify_eq. simpl.
      pose proof (mutex_holders_insert _ _ _
                    (Returned (RInt (get_render_interval (timer w)))) Hpc) as Hins.
      simpl in *. lia.
    + (* CrLock *)
      destruct (m_mutex (timer w)) eqn:Hm; simplify_eq. simpl.
      pose proof (mutex_holders_insert _ _ _ CrPred Hpc) as Hins.
      simpl in *. lia.
    + (* CrPred *)
      simplify_eq. simpl.
      pose proof (mutex_holders_insert _ _ _
                    (if m_render_ready (timer w) then CrClear else CrEnterWait)
                    Hpc) as Hins.
      destruct (m_render_ready (timer w)); simpl in *; lia.
    + (* CrEnterWait *)
      simplify_eq. simpl.
      pose proof (mutex_holders_insert _ _ _ CrBlocked Hpc) as Hins.
      destruct (m_mutex (timer w)); simpl in *; lia.
    + (* CrWoken *)
      destruct (m_mutex (timer w)) eqn:Hm; simplify_eq. simpl.
      pose proof (mutex_holders_insert _ _ _ CrPred Hpc) as Hins.
      simpl in *. lia.
    + (* CrClear *)
      simplify_eq. simpl.
      pose proof (mutex_holders_insert _ _ _ (Returned (RBool true)) Hpc) as Hins.
      destruct (m_mutex (timer w)); simpl in *; lia.
  - unfold loop_step in Hstep.
    destruct (m_thread (timer w)) as [| lpc] eqn:Hth; [done |].
    destruct lpc; simpl in Hstep.
    + simplify_eq. simpl. destruct (m_running (timer w)); simpl; lia.
    + destruct (m_mutex (timer w)) eqn:Hm; simplify_eq. simpl in *. lia.
    + simplify_eq. simpl. destruct (m_mutex (timer w)); simpl in *; lia.
    + simplify_eq. simpl. rewrite mutex_holders_wake. lia.
    + simplify_eq. simpl. rewrite correct_interval_mutex.
      case_bool_decide; simpl; lia.
    + case_bool_decide; simplify_eq. simpl. lia.
    + done.
  - case_bool_decide; by simplify_eq.
Qed.

(** X7.  Mutual exclusion.  In every execution the mutex is taken
    exactly when one thread is inside a critical section: no two
    clients hold it together, no client holds it while the loop is
    inside its lock_guard block, and when nobody holds it it is free. *)
Theorem mutual_exclusion (sched : list label) (n : nat) (now : Z) (w : world) :
  run sched (init n now) = Ok w →
  mutex_owned w
  ∧ (∀ a b pca pcb, a ≠ b → at_pc w a pca → at_pc w b pcb →
       holds_mutex pca + holds_mutex pcb ≤ 1)
  ∧ (∀ a pca frame_start, at_pc w a pca → loop_at w (LSet frame_start) →
       holds_mutex pca = 0).
Proof.
  intros Hrun.
  assert (mutex_owned w) as Hinv.
  { revert Hrun. apply (run_invariant mutex_owned).
    - intros l w1 w2. apply mutex_owned_step.
    - unfold mutex_owned, loop_holds_mutex. simpl.
      by rewrite mutex_holders_replicate_idle. }
  split; [exact Hinv |].
  unfold mutex_owned, loop_holds_mutex, at_pc, loop_at in *.
  split.
  - intros a b pca pcb Hab Ha Hb.
    pose proof (mutex_holders_two _ _ _ _ _ Hab Ha Hb).
    destruct (m_mutex (timer w)); simpl in *; lia.
  - intros a pca s Ha Hloop. rewrite Hloop in Hinv.
    pose proof (mutex_holders_one _ _ _ Ha).
    destruct (m_mutex (timer w)); simpl in *; lia.
Qed.

Lemma mutual_exclusion_witness :
  ∃ w, run (start_sched 0 ++ [LoopStep; LoopStep; Call 1 CanRender])
           (init 2 0) = Ok w
       ∧ loop_at w (LSet 0) ∧ step (Step 1) w = Blocked ∧ mutex_owned w.
Proof.
  eexists.
  match goal with
  | |- run ?s ?w0 = Ok ?w ∧ _ =>
      let r := eval vm_compute in (run s w0) in
      match r with
      | Ok ?w1 =>
          destruct (mutual_exclusion s 2 0 w1) as (Hinv & _); [evaluate |];
          split; [evaluate |]; split; [reflexivity |];
          split; [reflexivity | exact Hinv]
      end
  end.
Defined.

(** *** [start] and [stop] from one thread *)

Lemma in_start_or_stop_wake pc : in_start_or_stop (wake pc) = in_start_or_stop pc.
Proof. by destruct pc. Qed.

Lemma phase_of_wake o : phase_of (wake <$> o) = phase_of o.
Proof. by destruct o as [[] |]. Qed.

Lemma phase_of_outside pc :
  in_start_or_stop pc = false → phase_of (Some pc) = Settled.
Proof. by destruct pc. Qed.

Lemma phase_ok_same ph t t' :
  m_running t' = m_running t → m_thread t' = m_thread t →
  phase_ok ph t → phase_ok ph t'.
Proof. intros Hr Ht. destruct ph; simpl; by rewrite Hr, Ht. Qed.

(** A client other than the controller moves, outside [start] and
    [stop], and leaves the running flag and the thread alone. *)
Lemma controlled_world_other ctl w t old new tm' :
  t ≠ ctl → clients w !! t = Some old → in_start_or_stop new = false →
  m_running tm' = m_running (timer w) → m_thread tm' = m_thread (timer w) →
  controlled_world ctl w →
  controlled_world ctl (set_client t new (set_timer tm' w)).
Proof.
  intros Hne Hold Hnew Hr Ht [Hothers Hphase]. split; simpl.
  - intros t' pc Hpc Hne'. destruct (decide (t = t')) as [<- | Hne2].
    + rewrite list_lookup_insert_eq in Hpc by (by eapply lookup_lt_Some).
      by simplify_eq.
    + rewrite list_lookup_insert_ne in Hpc by done. by eapply Hothers.
  - rewrite list_lookup_insert_ne by done. by eapply phase_ok_same.
Qed.

(** The controller moves. *)
Lemma controlled_world_ctl ctl w old new tm' :
  clients w !! ctl = Some old → phase_ok (phase_of (Some new)) tm' →
  controlled_world ctl w →
  controlled_world ctl (set_client ctl new (set_timer tm' w)).
Proof.
  intros Hold Hnew [Hothers Hphase]. split; simpl.
  - intros t' pc Hpc Hne'.
    rewrite list_lookup_insert_ne in Hpc by done. by eapply Hothers.
  - by rewrite list_lookup_insert_eq by (by eapply lookup_lt_Some).
Qed.

(** A [notify_all] changes nothing the invariant looks at. *)
Lemma controlled_world_notify ctl w :
  controlled_world ctl w → controlled_world ctl (notify_all w).
Proof.
  intros [Hothers Hphase]. split; simpl.
  - intros t pc Hpc Hne. rewrite list_lookup_fmap in Hpc.
    destruct (clients w !! t) as [pc0 |] eqn:Hpc0; [| done].
    simpl in Hpc. simplify_eq. rewrite in_start_or_stop_wake. by eapply Hothers.
  - by rewrite list_lookup_fmap, phase_of_wake.
Qed.

Lemma controlled_step ctl l w :
  controlled_world ctl w → controlled ctl l = true →
  step l w ≠ Fault ∧ ∀ w', step l w = Ok w' → controlled_world ctl w'.
Proof.
  intros Hinv Hl. pose proof Hinv as [Hothers Hphase].
  destruct l as [t op | t | | dt]; simpl.
  - destruct (clients w !! t) as [pc |] eqn:Hpc; [| done].
    split; [by destruct pc |]. intros w' Hstep.
    assert (w' = set_client t (entry op) (set_timer (timer w) w)
            ∧ in_start_or_stop pc = false) as [-> Hout]
      by (destruct pc; by simplify_eq).
    destruct (decide (t = ctl)) as [-> | Hne].
    + eapply controlled_world_ctl; [done | | done].
      rewrite Hpc, (phase_of_outside _ Hout) in Hphase.
      by destruct op.
    + eapply controlled_world_other; try done.
      destruct op; try done; simpl in Hl; by case_bool_decide.
  - destruct (clients w !! t) as [pc |] eqn:Hpc; [| done].
    destruct (decide (t = ctl)) as [-> | Hne].
    + rewrite Hpc in Hphase.
      destruct pc; simpl in Hphase; simpl; try done;
        try (destruct (m_mutex (timer w)); [done |]);
        try (split; [done |]; intros w' Hstep; simplify_eq;
             eapply controlled_world_ctl; [done | | done];
             eapply (phase_ok_same Settled);
             [| | exact Hphase];
             rewrite ?set_fps_running, ?set_fps_thread; by try case_match).
      * (* the exchange of [start] *)
        split; [done |]. intros w' Hstep. simplify_eq.
        eapply controlled_world_ctl; [done | | done].
        destruct Hphase as [[Hr Ht] | [Hr Ht]]; rewrite Hr; simpl.
        -- left. done.
        -- done.
      * (* the launch *)
        destruct Hphase as [Hr Ht]. rewrite Ht.
        split; [done |]. intros w' Hstep. simplify_eq.
        apply (controlled_world_ctl ctl (count_launch w) StartLaunch
                 (Returned RVoid)
                 (with_thread (Joinable LCheck)
                    (with_start_time (clock w) (timer w)))); [done | | exact Hinv].
        left. simpl. split; [done |]. by exists LCheck.
      * (* the exchange of [stop] *)
        split; [done |]. intros w' Hstep. simplify_eq.
        eapply controlled_world_ctl; [done | | done].
        destruct Hphase as [[Hr (lpc & Ht & _)] | [Hr Ht]]; rewrite Hr; simpl.
        -- split; [done |]. by exists lpc.
        -- right. done.
      * (* the notify of [stop] *)
        split; [done |]. intros w' Hstep. simplify_eq.
        pose proof (controlled_world_notify _ _ Hinv) as Hinv'.
        eapply (controlled_world_ctl _ (notify_all w) StopNotify StopJoin
                  (timer w)); [| done | done].
        simpl. by rewrite list_lookup_fmap, Hpc.
      * (* the join *)
        destruct Hphase as [Hr (lpc & Ht)]. rewrite Ht.
        destruct lpc; try done.
        split; [done |]. intros w' Hstep. simplify_eq.
        eapply controlled_world_ctl; [done | | done].
        right. done.
      * (* the predicate of the wait *)
        split; [done |]. intros w' Hstep. simplify_eq.
        eapply controlled_world_ctl; [done | | done].
        destruct (m_render_ready (timer w)); exact Hphase.
    + pose proof (Hothers _ _ Hpc Hne) as Hout.
      destruct pc; simpl in Hout; simpl; try done;
        try (destruct (m_mutex (timer w)); [done |]);
        split; try done; intros w' Hstep; simplify_eq;
        eapply controlled_world_other; try done;
        rewrite ?set_fps_running, ?set_fps_thread; by try case_match.
  - unfold loop_step.
    destruct (m_thread (timer w)) as [| lpc] eqn:Hth; [done |].
    assert (∀ lpc' w1, controlled_world ctl w1 →
              m_running (timer w1) = m_running (timer w) →
              m_thread (timer w1) = Joinable lpc →
              (m_running (timer w) = true → lpc' ≠ LDone) →
              controlled_world ctl (set_loop lpc' w1)) as Hmove.
    { intros lpc' w1 [Ho Hp] Hr Ht Hdone. split; [exact Ho |].
      simpl. destruct (phase_of (clients w1 !! ctl)); simpl in *.
      - destruct Hp as [_ Hp]. congruence.
      - destruct Hp as [Hp _]. split; [done |]. by eexists.
      - destruct Hp as [[Hp _] | [_ Hp]]; [| congruence].
        left. split; [done |]. eexists. split; [done |].
        apply Hdone. congruence. }
    destruct lpc; simpl;
      try (destruct (m_mutex (timer w)); [done |]);
      try (case_bool_decide; [| done]);
      (split; [done |]); intros w' Hstep; simplify_eq.
    + apply Hmove; try done. intros ->. done.
    + by apply (Hmove _ (set_timer (with_mutex true (timer w)) w)).
    + by apply (Hmove (LNotify frame_start)
                  (set_timer (with_mutex false (with_render_ready true (timer w))) w)).
    + apply (Hmove _ (notify_all w)); try done.
      by apply controlled_world_notify.
    + apply (Hmove _ (set_timer (correct_interval
                                   (frame_duration w frame_start) (timer w)) w)).
      * destruct Hinv as [Ho Hp]. split; [exact Ho |].
        eapply phase_ok_same; [| | exact Hp]; simpl.
        -- apply correct_interval_running.
        -- unfold correct_interval. by case_match.
      * simpl. apply correct_interval_running.
      * simpl. unfold correct_interval. by case_match.
      * intros _. by case_bool_decide.
    + apply Hmove; try done.
  - split; [by case_bool_decide |].
    intros w' Hstep. case_bool_decide; by simplify_eq.
Qed.

Lemma run_safe (ok : label → bool) (P : world → Prop) sched w :
  (∀ l w1, P w1 → ok l = true →
     step l w1 ≠ Fault ∧ ∀ w2, step l w1 = Ok w2 → P w2) →
  forallb ok sched = true → P w →
  run sched w ≠ Fault ∧ ∀ w', run sched w = Ok w' → P w'.
Proof.
  intros Hstep. revert w. induction sched as [| l sched IH]; intros w Hs HP.
  - simpl. split; [done |]. intros w' Hw. by simplify_eq.
  - simpl in Hs. apply andb_prop in Hs as [Hl Hs].
    destruct (Hstep l w HP Hl) as [Hnf Hok].
    rewrite run_cons.
    destruct (step l w) as [w1 | |] eqn:Hw1; [| done | done].
    apply IH; [done | by apply Hok].
Qed.

Lemma controlled_world_init ctl n now : controlled_world ctl (init n now).
Proof.
  split; simpl.
  - intros t pc Hpc _. apply lookup_replicate in Hpc as [-> _]. done.
  - destruct (replicate n Idle !! ctl) as [pc |] eqn:Hpc.
    + apply lookup_replicate in Hpc as [-> _]. simpl. by right.
    + simpl. by right.
Qed.

(** X8.  When one thread makes all the calls of start and stop, while
    any number of others call can_render, set_fps and
    get_render_interval, no schedule makes the program fault: start
    never assigns to a joinable thread and stop never joins a thread
    that is not joinable.  Whenever the controlling thread is between
    calls, either the running flag is up and a loop is executing, or
    the flag is down and there is no thread. *)
Theorem one_controller_never_faults (ctl n : nat) (now : Z) (sched : list label) :
  forallb (controlled ctl) sched = true →
  run sched (init n now) ≠ Fault
  ∧ ∀ w, run sched (init n now) = Ok w → callable w ctl →
      (m_running (timer w) = true ∧ ∃ pc, loop_at w pc ∧ pc ≠ LDone)
      ∨ (m_running (timer w) = false ∧ m_thread (timer w) = NotJoinable).
Proof.
  intros Hs.
  destruct (run_safe (controlled ctl) (controlled_world ctl) sched (init n now))
    as [Hnf Hinv]; [| done | apply controlled_world_init |].
  { intros l w1. apply controlled_step. }
  split; [exact Hnf |].
  intros w Hw Hc. destruct (Hinv w Hw) as [_ Hphase].
  destruct Hc as [Hc | [v Hc]]; rewrite Hc in Hphase; exact Hphase.
Qed.

Lemma one_controller_never_faults_witness :
  ∃ w, run restart_sched (init 2 0) = Ok w
       ∧ m_running (timer w) = true ∧ loop_at w LCheck.
Proof.
  destruct (one_controller_never_faults 0 2 0 restart_sched) as [_ Hok];
    [reflexivity |].
  match goal with
  | |- ∃ w, run ?s ?w0 = Ok w ∧ _ =>
      let r := eval vm_compute in (run s w0) in
      match r with
      | Ok ?w1 =>
          exists w1;
          destruct (Hok w1) as [[Hr _] | [Hr _]];
            [evaluate | right; eexists; reflexivity | | discriminate Hr];
          split; [evaluate |]; split; [exact Hr | reflexivity]
      end
  end.
Defined.

(** X9.  start and stop are not safe against each other.  A stop that
    runs between the exchange of a start and its creation of the
    thread sees the flag up, and its join throws because there is no
    thread yet.  A start that runs between the exchange of a stop and
    the end of its join sees the flag down, and its assignment to
    m_thread terminates the program because the old thread is still
    joinable. *)
Theorem start_stop_race_faults :
  (∀ w a b, at_pc w a StartLaunch → at_pc w b StopEntry →
     m_running (timer w) = true → m_thread (timer w) = NotJoinable →
     run [Step b; Step b; Step b] w = Fault)
  ∧ (∀ w a b pc, at_pc w a StopJoin → callable w b →
       m_running (timer w) = false → loop_at w pc →
       run (start_sched b) w = Fault).
Proof.
  split.
  - intros w a b Ha Hb Hr Ht.
    pose proof (lookup_lt_Some _ _ _ Hb) as Hlt.
    rewrite run_cons, (step_at _ _ _ Hb).
    cbn [client_step exchange_running]. rewrite Hr.
    rewrite run_cons, (step_at _ b StopNotify) by (by apply at_pc_set_client).
    cbn [client_step].
    rewrite run_cons, (step_at _ b StopJoin)
      by (apply at_pc_set_client; simpl;
          by rewrite length_fmap, length_insert).
    simpl. by rewrite Ht.
  - intros w a b pc Ha Hb Hr Ht. unfold loop_at in Ht.
    pose proof (callable_lt _ _ Hb) as Hlt.
    unfold start_sched.
    rewrite run_cons, (callable_call _ _ _ Hb).
    rewrite run_cons, (step_at _ b StartEntry) by (by apply at_pc_set_client).
    cbn [client_step entry exchange_running timer set_client]. rewrite Hr.
    cbn [negb].
    rewrite run_cons, (step_at _ b StartLaunch)
      by (apply at_pc_set_client; simpl; by rewrite length_insert).
    simpl. by rewrite Ht.
Qed.

Lemma start_stop_race_faults_witness :
  (∃ w, run [Call 0 Start; Step 0; Call 1 Stop] (init 2 0) = Ok w
        ∧ run [Step 1; Step 1; Step 1] w = Fault)
  ∧ (∃ w, run (start_sched 0 ++ [Call 0 Stop; Step 0; Step 0]) (init 2 0) = Ok w
          ∧ run (start_sched 1) w = Fault).
Proof.
  destruct start_stop_race_faults as [Hstop Hstart].
  split.
  - eexists. split; [evaluate |].
    match goal with
    | |- run _ ?w = Fault => apply (Hstop w 0 1); reflexivity
    end.
  - eexists. split; [evaluate |].
    match goal with
    | |- run _ ?w = Fault =>
        apply (Hstart w 0 1 LCheck);
          [reflexivity | left; reflexivity | reflexivity | reflexivity]
    end.
Defined.

(** *** [can_render] with one consumer *)

Lemma in_can_render_wake pc : in_can_render (wake pc) = in_can_render pc.
Proof. by destruct pc. Qed.

Lemma waiting_wake pc : waiting (wake pc) = waiting pc.
Proof. by destruct pc. Qed.

Lemma set_fps_render_ready fps t :
  m_render_ready (set_fps fps t) = m_render_ready t.
Proof. unfold set_fps. by case_match. Qed.

Lemma correct_interval_render_ready d t :
  m_render_ready (correct_interval d t) = m_render_ready t.
Proof. unfold correct_interval. by case_match. Qed.

Lemma consumer_world_notify c w :
  consumer_world c w → consumer_world c (notify_all w).
Proof.
  intros [Hothers Hflag]. split; simpl.
  - intros t pc Hpc Hne. rewrite list_lookup_fmap in Hpc.
    destruct (clients w !! t) as [pc0 |] eqn:Hpc0; [| done].
    simpl in Hpc. simplify_eq. rewrite in_can_render_wake. by eapply Hothers.
  - intros pc Hpc Hw. rewrite list_lookup_fmap in Hpc.
    destruct (clients w !! c) as [pc0 |] eqn:Hpc0; [| done].
    simpl in Hpc. simplify_eq. rewrite waiting_wake in Hw. by eapply Hflag.
Qed.

(** A client other than the consumer moves, outside [can_render], and
    leaves the flag alone. *)
Lemma consumer_world_other c w t old new tm' :
  t ≠ c → clients w !! t = Some old → in_can_render new = false →
  m_render_ready tm' = m_render_ready (timer w) →
  consumer_world c w →
  consumer_world c (set_client t new (set_timer tm' w)).
Proof.
  intros Hne Hold Hnew Hr [Hothers Hflag]. split; simpl.
  - intros t' pc Hpc Hne'. destruct (decide (t = t')) as [<- | Hne2].
    + rewrite list_lookup_insert_eq in Hpc by (by eapply lookup_lt_Some).
      by simplify_eq.
    + rewrite list_lookup_insert_ne in Hpc by done. by eapply Hothers.
  - intros pc Hpc Hw. rewrite list_lookup_insert_ne in Hpc by done.
    rewrite Hr. by eapply Hflag.
Qed.

(** The consumer moves. *)
Lemma consumer_world_consumer c w old new tm' :
  clients w !! c = Some old →
  (waiting new = true → m_render_ready tm' = true) →
  consumer_world c w →
  consumer_world c (set_client c new (set_timer tm' w)).
Proof.
  intros Hold Hnew [Hothers Hflag]. split; simpl.
  - intros t' pc Hpc Hne'.
    rewrite list_lookup_insert_ne in Hpc by done. by eapply Hothers.
  - intros pc Hpc Hw.
    rewrite list_lookup_insert_eq in Hpc by (by eapply lookup_lt_Some).
    simplify_eq. by apply Hnew.
Qed.

Lemma consumer_step c l w w' :
  one_consumer c l = true → step l w = Ok w' →
  consumer_world c w → consumer_world c w'.
Proof.
  intros Hl Hstep Hinv. pose proof Hinv as [Hothers Hflag].
  destruct l as [t op | t | | dt]; simpl in Hstep.
  - destruct (clients w !! t) as [pc |] eqn:Hpc; [| done].
    assert (w' = set_client t (entry op) (set_timer (timer w) w)) as ->
      by (destruct pc; by simplify_eq).
    destruct (decide (t = c)) as [-> | Hne].
    + eapply consumer_world_consumer; [done | | done]. by destruct op.
    + eapply consumer_world_other; try done.
      destruct op; try done. simpl in Hl. by case_bool_decide.
  - destruct (clients w !! t) as [pc |] eqn:Hpc; [| done].
    destruct (decide (t = c)) as [-> | Hne].
    + destruct pc; simpl in Hstep; try done; repeat case_match; simplify_eq;
        first
          [ by (eapply consumer_world_consumer; [done | | done])
          | (* the notify of [stop] *)
            by (eapply (consumer_world_consumer _ (notify_all w) StopNotify
                          StopJoin (timer w));
                [simpl; by rewrite list_lookup_fmap, Hpc | done
                | by apply consumer_world_notify])
          | (* the wait: the flag is set by invariant *)
            by (eapply consumer_world_consumer; [done | | done];
                intros _; simpl; by eapply Hflag) ].
    + pose proof (Hothers _ _ Hpc Hne) as Hout.
      destruct pc; simpl in Hout; simpl in Hstep; try done;
        repeat case_match; simplify_eq;
        first
          [ by (eapply consumer_world_other; try done;
                by rewrite ?set_fps_render_ready)
          | (* the notify of [stop] *)
            by (eapply (consumer_world_other _ (notify_all w) t StopNotify
                          StopJoin (timer w)); try done;
                [simpl; by rewrite list_lookup_fmap, Hpc
                | by apply consumer_world_notify]) ].
  - unfold loop_step in Hstep.
    destruct (m_thread (timer w)) as [| lpc] eqn:Hth; [done |].
    destruct lpc; simpl in Hstep;
      try (destruct (m_mutex (timer w)); [done |]);
      try (case_bool_decide; [| done]);
      simplify_eq;
      first
        [ done
        | by (split; simpl; [exact Hothers | done])
        | by apply (consumer_world_notify c w)
        | by (split; simpl; [exact Hothers |];
              intros pc Hpc Hw; rewrite correct_interval_render_ready;
              by eapply Hflag) ].
  - case_bool_decide; by simplify_eq.
Qed.

(** X10.  With a single consumer, the flag is set whenever the
    consumer is waiting (it is the consumer's own predicate that set
    it, and only the consumer clears it), so a wake-up is never
    wasted: once notified, whether by a tick or by stop, the consumer
    reacquires the mutex, passes the predicate and returns true. *)
Theorem single_consumer_wakeup_returns (c n : nat) (now : Z)
    (sched : list label) (w : world) :
  forallb (one_consumer c) sched = true →
  run sched (init n now) = Ok w →
  (∀ pc, at_pc w c pc → waiting pc = true → m_render_ready (timer w) = true)
  ∧ (at_pc w c CrWoken → m_mutex (timer w) = false →
     ∃ w', run (resume_sched c) w = Ok w'
           ∧ at_pc w' c (Returned (RBool true))).
Proof.
  intros Hs Hrun.
  assert (consumer_world c w) as [Hothers Hflag].
  { revert Hrun. apply (run_invariant_on (one_consumer c) (consumer_world c));
      [| done |].
    - intros l w1 w2. apply consumer_step.
    - split; simpl.
      + intros t pc Hpc _. apply lookup_replicate in Hpc as [-> _]. done.
      + intros pc Hpc Hw. apply lookup_replicate in Hpc as [-> _]. done. }
  split; [exact Hflag |].
  intros Hat Hmutex.
  rewrite run_resume_passes; [| done | by eapply Hflag | done].
  eexists. split; [reflexivity |].
  unfold at_pc in *. simpl. apply list_lookup_insert_eq.
  by eapply lookup_lt_Some.
Qed.

Lemma single_consumer_wakeup_returns_witness :
  ∃ w w', run wait_for_first_tick_sched (init 2 0) = Ok w
          ∧ at_pc w 1 CrWoken
          ∧ run (resume_sched 1) w = Ok w'
          ∧ at_pc w' 1 (Returned (RBool true)).
Proof.
  eexists.
  match goal with
  | |- ∃ w', run ?s ?w0 = Ok ?w ∧ _ =>
      let r := eval vm_compute in (run s w0) in
      match r with
      | Ok ?w1 =>
          destruct (single_consumer_wakeup_returns 1 2 0 s w1)
            as (_ & Hret); [reflexivity | evaluate |];
          destruct Hret as (w' & Hrun & Hat); [reflexivity | reflexivity |];
          exists w'; split; [evaluate |]; split; [reflexivity |];
          split; [exact Hrun | exact Hat]
      end
  end.
Defined.

(** *** The loop after the running flag is lowered *)

Lemma lowered_step l w w' :
  m_running (timer w) = false → no_start_pending w →
  is_start_call l = false → step l w = Ok w' →
  m_running (timer w') = false ∧ no_start_pending w'
  ∧ ticks w' + tick_budget w' ≤ ticks w + tick_budget w.
Proof.
  unfold tick_budget. intros Hr Hns Hl Hstep.
  destruct l as [t op | t | | dt]; simpl in Hstep.
  - assert (in_start (entry op) = false) by (by destruct op).
    destruct (clients w !! t) as [[] |]; simplify_eq; simpl;
      (split; [done |]; split; [| lia]);
      by apply Forall_insert.
  - destruct (clients w !! t) as [pc |] eqn:Hpc; [| done].
    pose proof (Forall_lookup_1 _ _ _ _ Hns Hpc) as Hp. simpl in Hp.
    destruct pc; try done; simpl in Hstep;
      try (destruct (m_mutex (timer w)); [done |]);
      try (destruct (m_render_ready (timer w)));
      try (destruct (m_thread (timer w)) as [| []] eqn:Hth; try done);
      try rewrite Hr in *;
      simplify_eq; simpl;
      rewrite ?set_fps_thread, ?set_fps_running, ?Hth.
    all: (split; [done |]; split; [| repeat case_match; lia]);
      try (by apply Forall_insert).
    all: apply Forall_insert; [| done]; by apply no_start_pending_notify.
  - unfold loop_step in Hstep.
    destruct (m_thread (timer w)) as [| lpc] eqn:Hth; [done |].
    destruct lpc; simpl in Hstep;
      try (destruct (m_mutex (timer w)); [done |]);
      try (case_bool_decide; [| done]);
      try rewrite Hr in *;
      simplify_eq; simpl;
      rewrite ?correct_interval_running;
      (split; [done |]; split; [| try case_bool_decide; lia]);
      try done.
    by apply (no_start_pending_notify w).
  - case_bool_decide; simplify_eq. simpl. rewrite Hr. done.
Qed.

(** X11.  Once the running flag is down and nobody is inside start,
    the loop lets at most one more tick through: none if it stands
    anywhere but between its check of the flag and its test_and_set,
    and this under every schedule in which start is not called. *)
Theorem at_most_one_tick_after_flag_down (sched : list label) (w w' : world) :
  m_running (timer w) = false → no_start_pending w →
  forallb (λ l, negb (is_start_call l)) sched = true →
  run sched w = Ok w' →
  ticks w' ≤ ticks w + tick_budget w ∧ ticks w' ≤ ticks w + 1.
Proof.
  intros Hr Hns Hs Hrun.
  assert (m_running (timer w') = false ∧ no_start_pending w'
          ∧ ticks w' + tick_budget w' ≤ ticks w + tick_budget w)
    as (_ & _ & Hticks).
  { revert Hrun.
    apply (run_invariant_on (λ l, negb (is_start_call l))
             (λ w1, m_running (timer w1) = false ∧ no_start_pending w1
                    ∧ ticks w1 + tick_budget w1 ≤ ticks w + tick_budget w));
      [| done | done].
    intros l w1 w2 Hl Hstep (Hr1 & Hns1 & Hb1).
    apply negb_true_iff in Hl.
    destruct (lowered_step _ _ _ Hr1 Hns1 Hl Hstep) as (? & ? & ?).
    split; [done |]. split; [done | lia]. }
  assert (tick_budget w ≤ 1) by (unfold tick_budget; repeat case_match; lia).
  lia.
Qed.

Lemma at_most_one_tick_after_flag_down_witness :
  ∃ w w', run (start_sched 0 ++ [LoopStep; LoopStep; Call 0 Stop; Step 0])
              (init 1 0) = Ok w
          ∧ m_running (timer w) = false ∧ tick_budget w = 1
          ∧ run [Step 0; LoopStep; LoopStep; LoopStep;
                 Elapse (Chrono.milliseconds 16); LoopStep; LoopStep; Step 0] w
            = Ok w'
          ∧ ticks w' ≤ ticks w + 1.
Proof.
  eexists.
  match goal with
  | |- ∃ w', run ?s ?w0 = Ok ?w ∧ _ ∧ _ ∧ run ?s2 _ = _ ∧ _ =>
      let r := eval vm_compute in (run s w0) in
      match r with
      | Ok ?w1 =>
          let r2 := eval vm_compute in (run s2 w1) in
          match r2 with
          | Ok ?w2 =>
              exists w2;
              destruct (at_most_one_tick_after_flag_down s2 w1 w2)
                as [_ Hone];
                [reflexivity | repeat constructor | reflexivity | evaluate |];
              split; [evaluate |]; split; [reflexivity |];
              split; [reflexivity |]; split; [evaluate | exact Hone]
          end
      end
  end.
Defined.

Lemma returns_within_mono k k' w :
  k ≤ k' → returns_within k w → returns_within k' w.
Proof.
  intros Hk (sched & w' & Hlen & Hrest). exists sched, w'.
  split; [lia | exact Hrest].
Qed.

Lemma returns_within_step k w w1 :
  step LoopStep w = Ok w1 →
  ticks w1 + tick_budget w1 ≤ ticks w + tick_budget w →
  returns_within k w1 → returns_within (S k) w.
Proof.
  intros Hstep Hb (sched & w' & Hlen & Hall & Hrun & Hdone & Hticks).
  exists (LoopStep :: sched), w'.
  split; [simpl; lia |]. split; [done |].
  split; [by rewrite run_cons, Hstep |]. split; [done | lia].
Qed.

Lemma returns_within_elapse k w dt :
  (0 ≤ dt)%Z → returns_within k (advance dt w) → returns_within (S k) w.
Proof.
  intros Hdt (sched & w' & Hlen & Hall & Hrun & Hdone & Hticks).
  exists (Elapse dt :: sched), w'.
  split; [simpl; lia |]. split; [done |].
  split; [| split; [done | exact Hticks]].
  rewrite run_cons. simpl. by rewrite bool_decide_eq_true_2 by done.
Qed.

Lemma returns_from_check w :
  loop_at w LCheck → m_running (timer w) = false → returns_within 1 w.
Proof.
  unfold loop_at. intros Hat Hr.
  eapply (returns_within_step 0).
  - unfold step, loop_step. rewrite Hat, Hr. reflexivity.
  - unfold tick_budget. simpl. rewrite Hat. lia.
  - exists [], (set_loop LDone w). simpl. repeat split; lia.
Qed.

Lemma returns_from_sleep w wake_at :
  loop_at w (LSleep wake_at) → m_running (timer w) = false →
  returns_within 3 w.
Proof.
  unfold loop_at. intros Hat Hr.
  apply (returns_within_elapse 2 w (Z.max 0 (wake_at - clock w))); [lia |].
  eapply (returns_within_step 1).
  - unfold step, loop_step. simpl. rewrite Hat.
    rewrite bool_decide_eq_true_2 by lia. reflexivity.
  - unfold tick_budget. simpl. rewrite Hat. lia.
  - by apply returns_from_check.
Qed.

Lemma returns_from_measure w frame_start :
  loop_at w (LMeasure frame_start) → m_running (timer w) = false →
  returns_within 4 w.
Proof.
  unfold loop_at. intros Hat Hr.
  eapply (returns_within_step 3).
  - unfold step, loop_step. rewrite Hat. reflexivity.
  - unfold tick_budget. simpl. rewrite Hat. case_bool_decide; lia.
  - cbv zeta. case_bool_decide.
    + eapply returns_from_sleep; [reflexivity |].
      simpl. by rewrite correct_interval_running.
    + eapply (returns_within_mono 1); [lia |].
      apply returns_from_check; [reflexivity |].
      simpl. by rewrite correct_interval_running.
Qed.

Lemma returns_from_notify w frame_start :
  loop_at w (LNotify frame_start) → m_running (timer w) = false →
  returns_within 5 w.
Proof.
  unfold loop_at. intros Hat Hr.
  eapply (returns_within_step 4).
  - unfold step, loop_step. rewrite Hat. reflexivity.
  - unfold tick_budget. simpl. rewrite Hat. lia.
  - by eapply returns_from_measure.
Qed.

Lemma returns_from_set w frame_start :
  loop_at w (LSet frame_start) → m_running (timer w) = false →
  returns_within 6 w.
Proof.
  unfold loop_at. intros Hat Hr.
  eapply (returns_within_step 5).
  - unfold step, loop_step. rewrite Hat. reflexivity.
  - unfold tick_budget. simpl. rewrite Hat. lia.
  - by eapply returns_from_notify.
Qed.

(** X12.  Once the running flag is down the loop is on its way out:
    wherever it stands (with the mutex free if it is about to lock
    it), at most seven steps of its own and of the clock take it to
    the end of timer_loop, raising the flag at most once more, so the
    join in stop is not left waiting by the loop itself. *)
Theorem loop_returns_after_flag_down (w : world) (pc : loop_pc) :
  loop_at w pc → m_running (timer w) = false →
  (∀ frame_start, pc = LLock frame_start → m_mutex (timer w) = false) →
  returns_within 7 w.
Proof.
  intros Hat Hr Hmutex. destruct pc.
  - eapply returns_within_mono; [| by apply returns_from_check]. lia.
  - eapply (returns_within_step 6).
    + unfold loop_at in Hat. unfold step, loop_step.
      rewrite Hat, (Hmutex frame_start eq_refl). reflexivity.
    + unfold loop_at in Hat. unfold tick_budget. simpl. rewrite Hat. lia.
    + by eapply returns_from_set.
  - eapply returns_within_mono; [| by eapply returns_from_set]. lia.
  - eapply returns_within_mono; [| by eapply returns_from_notify]. lia.
  - eapply returns_within_mono; [| by eapply returns_from_measure]. lia.
  - eapply returns_within_mono; [| by eapply returns_from_sleep]. lia.
  - exists [], w. simpl. repeat split; [lia | done | lia].
Qed.

Lemma loop_returns_after_flag_down_witness :
  ∃ w, run (start_sched 0 ++ [LoopStep; Call 0 Stop; Step 0]) (init 1 0) = Ok w
       ∧ loop_at w (LLock 0) ∧ returns_within 7 w.
Proof.
  eexists. split; [evaluate |]. split; [reflexivity |].
  match goal with
  | |- returns_within 7 ?w =>
      apply (loop_returns_after_flag_down w (LLock 0));
        [reflexivity | reflexivity | intros; reflexivity]
  end.
Defined.

(** *** The earlier revision of the loop *)

Lemma rev1_run_cons l sched s :
  Rev1.run (l :: sched) s =
    match Rev1.step l s with
    | Ok s' => Rev1.run sched s'
    | Blocked => Blocked
    | Fault => Fault
    end.
Proof. reflexivity. Qed.

Lemma rev1_run_invariant_on (ok : label → bool) (P : Rev1.state → Prop) sched s s' :
  (∀ l s1 s2, ok l = true → Rev1.step l s1 = Ok s2 → P s1 → P s2) →
  forallb ok sched = true →
  P s → Rev1.run sched s = Ok s' → P s'.
Proof.
  intros Hstep. revert s. induction sched as [| l sched IH]; intros s Hs HP Hrun.
  - simpl in Hrun. by simplify_eq.
  - simpl in Hs. apply andb_prop in Hs as [Hl Hs].
    rewrite rev1_run_cons in Hrun.
    destruct (Rev1.step l s) as [s1 | |] eqn:Hs1; try done.
    apply (IH s1); [done | by eapply Hstep | done].
Qed.

(** In the earlier revision only [set_fps] writes the configuration. *)
Lemma rev1_step_config l s s' :
  Rev1.step l s = Ok s' →
  (m_fps (timer (Rev1.world_of s')) = m_fps (timer (Rev1.world_of s))
   ∧ m_render_interval (timer (Rev1.world_of s'))
     = m_render_interval (timer (Rev1.world_of s)))
  ∨ (∃ fps, timer (Rev1.world_of s') = set_fps fps (timer (Rev1.world_of s))).
Proof.
  intros Hstep.
  assert (∀ l0, l0 ≠ LoopStep →
            match step l0 (Rev1.world_of s) with
            | Ok w' =>
                Ok (Rev1.mk_state w'
                      (if Rev1.launches l0 (Rev1.world_of s)
                       then Rev1.Check else Rev1.loop s))
            | Blocked => Blocked
            | Fault => Fault
            end = Ok s' →
            (m_fps (timer (Rev1.world_of s')) = m_fps (timer (Rev1.world_of s))
             ∧ m_render_interval (timer (Rev1.world_of s'))
               = m_render_interval (timer (Rev1.world_of s)))
            ∨ (∃ fps, timer (Rev1.world_of s')
                      = set_fps fps (timer (Rev1.world_of s)))) as Hclient.
  { intros l0 Hl0 H0.
    destruct (step l0 (Rev1.world_of s)) as [w' | |] eqn:Hw'; try done.
    simplify_eq. simpl.
    destruct (step_config _ _ _ Hw')
      as [Hsame | [(c & fps & _ & _ & Ht) | (fs & Hl & _)]];
      [by left | right; by exists fps | done]. }
  destruct l as [t op | t | | dt].
  - by apply (Hclient (Call t op)).
  - by apply (Hclient (Step t)).
  - clear Hclient. simpl in Hstep.
    unfold Rev1.loop_step, test_and_set in Hstep.
    left. repeat case_match; simplify_eq; simpl in *; simplify_eq; done.
  - by apply (Hclient (Elapse dt)).
Qed.

(** X13.  In the earlier revision the interval agrees with the stored
    frequency in every reachable state, whatever the loop and the
    clients have done: it lies between 0 and 1000, and set_fps(F) with
    F positive followed by get_render_interval() gives 1000 / F
    without any condition. *)
Theorem rev1_interval_always_consistent (sched : list label) (n : nat) (now : Z)
    (s : Rev1.state) :
  Rev1.run sched (Rev1.init n now) = Ok s →
  consistent (timer (Rev1.world_of s))
  ∧ (0 ≤ m_render_interval (timer (Rev1.world_of s)) ≤ 1000)%Z
  ∧ ∀ F, (0 < F)%Z →
      get_render_interval (set_fps F (timer (Rev1.world_of s)))
      = (1000 `quot` F)%Z.
Proof.
  intros Hrun.
  assert (consistent (timer (Rev1.world_of s))
          ∧ (0 < m_fps (timer (Rev1.world_of s)))%Z) as [Hcons Hpos].
  { revert Hrun.
    apply (rev1_run_invariant_on (λ _, true)
             (λ s, consistent (timer (Rev1.world_of s))
                   ∧ (0 < m_fps (timer (Rev1.world_of s)))%Z)).
    - intros l s1 s2 _ Hstep [Hc Hp].
      destruct (rev1_step_config _ _ _ Hstep) as [[Hf Hi] | [fps Ht]].
      + unfold consistent in *. rewrite Hf, Hi. done.
      + rewrite Ht. split; [by apply set_fps_consistent
                           | by apply set_fps_positive].
    - by apply forallb_forall.
    - split; [reflexivity | done]. }
  split; [exact Hcons |]. split.
  - rewrite Hcons.
    pose proof (Z.quot_pos 1000 (m_fps (timer (Rev1.world_of s)))).
    pose proof (Z.quot_le_upper_bound 1000 (m_fps (timer (Rev1.world_of s))) 1000).
    split; [lia | nia].
  - intros F HF. unfold get_render_interval.
    destruct (decide (F = m_fps (timer (Rev1.world_of s)))) as [-> | Hne].
    + rewrite set_fps_ignored by auto. exact Hcons.
    + by rewrite set_fps_accepted.
Qed.

Lemma rev1_interval_always_consistent_witness :
  ∃ s, Rev1.run (start_sched 0
                 ++ [LoopStep; Elapse (Chrono.milliseconds 40); LoopStep;
                     LoopStep; LoopStep; LoopStep; LoopStep]) (Rev1.init 1 0) = Ok s
       ∧ ticks (Rev1.world_of s) = 1
       ∧ consistent (timer (Rev1.world_of s)).
Proof.
  eexists. split; [evaluate |]. split; [reflexivity |].
  match goal with
  | |- consistent (timer (Rev1.world_of ?s)) =>
      apply (rev1_interval_always_consistent
               (start_sched 0
                ++ [LoopStep; Elapse (Chrono.milliseconds 40); LoopStep;
                    LoopStep; LoopStep; LoopStep; LoopStep]) 1 0 s);
        evaluate
  end.
Defined.

Lemma rev1_before_tick_step since i ticks0 l s s' :
  is_loop_or_time l = true → Rev1.step l s = Ok s' →
  rev1_before_tick since i ticks0 s → rev1_before_tick since i ticks0 s'.
Proof.
  unfold rev1_before_tick. intros Hl Hstep (Hclock & Hi & Hcase).
  destruct l as [t op | t | | dt]; try done; simpl in Hstep.
  - unfold Rev1.loop_step, test_and_set in Hstep.
    destruct (m_thread (timer (Rev1.world_of s))) as [| []]; try done.
    destruct (Rev1.loop s) as [| fs wake | fs | fs | fs | fs | wake |] eqn:Hloop;
      repeat case_match; simplify_eq; simpl in *;
      (split; [done |]); (split; [done |]);
      destruct Hcase as [Hpast | (Hticks & [Hc | [Hc | (fs' & wake' & Hc & Hw)]])];
      simplify_eq; try (by left).
    + right. split; [done |]. right. right. do 2 eexists. split; [done |]. lia.
    + right. split; [done |]. right. left. done.
    + left. case_bool_decide; [lia | done].
  - case_bool_decide; simplify_eq. simpl.
    split; [lia |]. split; [done |].
    destruct Hcase as [Hpast | Hrest]; [left; lia | by right].
Qed.

(** X14.  In the earlier revision every tick is preceded by a sleep
    of one interval: from the top of an iteration, however the loop
    and the clock proceed, a further tick is not produced before one
    interval has passed. *)
Theorem rev1_tick_waits_one_interval (s s' : Rev1.state) (sched : list label) :
  Rev1.at_top s →
  forallb is_loop_or_time sched = true →
  Rev1.run sched s = Ok s' →
  ticks (Rev1.world_of s) < ticks (Rev1.world_of s') →
  (clock (Rev1.world_of s)
   + Chrono.milliseconds (m_render_interval (timer (Rev1.world_of s)))
   ≤ clock (Rev1.world_of s'))%Z.
Proof.
  intros (Hloop & _ & _) Hs Hrun Hticks.
  assert (rev1_before_tick (clock (Rev1.world_of s))
            (m_render_interval (timer (Rev1.world_of s)))
            (ticks (Rev1.world_of s)) s') as (_ & _ & Hcase).
  { revert Hrun.
    apply (rev1_run_invariant_on is_loop_or_time
             (rev1_before_tick (clock (Rev1.world_of s))
                (m_render_interval (timer (Rev1.world_of s)))
                (ticks (Rev1.world_of s)))); [| done |].
    - intros l s1 s2. apply rev1_before_tick_step.
    - split; [lia |]. split; [done |]. right. split; [done |]. by left. }
  destruct Hcase as [Hpast | [Hsame _]]; [exact Hpast | lia].
Qed.

Lemma rev1_tick_waits_one_interval_witness :
  ∃ s s', Rev1.run (start_sched 0) (Rev1.init 1 0) = Ok s
          ∧ Rev1.at_top s
          ∧ Rev1.run [LoopStep; Elapse (Chrono.milliseconds 16); LoopStep;
                      LoopStep; LoopStep] s = Ok s'
          ∧ ticks (Rev1.world_of s') = 1
          ∧ (Chrono.milliseconds 16 ≤ clock (Rev1.world_of s'))%Z.
Proof.
  eexists. eexists.
  split; [evaluate |]. split; [repeat split |].
  split; [evaluate |]. split; [reflexivity |].
  match goal with
  | |- (_ ≤ clock (Rev1.world_of ?s'))%Z =>
      apply (rev1_tick_waits_one_interval
               (Rev1.mk_state
                  (mk_world (mk_render_timer 60 16 true 0 false false
                                             (Joinable LCheck))
                            [Returned RVoid] 0 0 1) Rev1.Check)
               s'
               [LoopStep; Elapse (Chrono.milliseconds 16); LoopStep;
                LoopStep; LoopStep]);
        [repeat split | reflexivity | evaluate | vm_compute; lia]
  end.
Defined.

(** *** Waiting with no loop to notify *)

Lemma ev_run_cons e evs w :
  ev_run (e :: evs) w =
    match ev_step e w with
    | Ok w' => ev_run evs w'
    | Blocked => Blocked
    | Fault => Fault
    end.
Proof. reflexivity. Qed.

(** In a quiescent world a blocked client stays blocked as long as
    nobody makes a new call and no wake-up without notification
    occurs. *)
Lemma ev_quiescent_hang evs w w' c :
  quiescent w → at_pc w c CrBlocked →
  forallb is_quiet evs = true →
  ev_run evs w = Ok w' → at_pc w' c CrBlocked.
Proof.
  revert w. induction evs as [| e evs IH]; intros w Hq Hc Hs Hrun.
  - simpl in Hrun. by simplify_eq.
  - simpl in Hs. apply andb_prop in Hs as [He Hs].
    destruct e as [l | t]; [| done]. simpl in He.
    apply negb_true_iff in He.
    rewrite ev_run_cons in Hrun. simpl in Hrun.
    destruct (step l w) as [w1 | |] eqn:Hstep; try done.
    destruct (quiescent_step _ _ _ Hq He Hstep) as [Hq1 Hcl].
    apply (IH w1); try done. unfold at_pc in *. by rewrite Hcl.
Qed.

(** X15.  can_render on a pacer that has no background thread and no
    pending tick blocks.  No step of any thread and no passage of time
    releases it: short of a new call (start), only a wake-up without
    notification, which condition_variable::wait permits, ends the
    wait, and then can_render returns true (its own predicate has set
    the flag) although no tick was ever produced. *)
Theorem can_render_without_loop_hangs (w : world) (c : nat) :
  quiescent w → callable w c →
  m_render_ready (timer w) = false → m_mutex (timer w) = false →
  ∃ w1, run (can_render_sched c) w = Ok w1
        ∧ at_pc w1 c CrBlocked
        ∧ (∀ evs w2, forallb is_quiet evs = true →
             ev_run evs w1 = Ok w2 → at_pc w2 c CrBlocked)
        ∧ ∃ w2, ev_run (spurious_resume c) w1 = Ok w2
                ∧ at_pc w2 c (Returned (RBool true))
                ∧ ticks w2 = ticks w.
Proof.
  intros [Hth Hparked] Hc Hready Hmutex.
  pose proof (callable_lt _ _ Hc) as Hlt.
  eexists. split; [by apply run_can_render_blocks |].
  assert (at_pc
            (mk_world (with_render_ready true (timer w))
                      (<[c := CrBlocked]> (clients w))
                      (clock w) (ticks w) (launched w)) c CrBlocked) as Hat
    by (unfold at_pc; simpl; by apply list_lookup_insert_eq).
  split; [exact Hat |]. split.
  - intros evs w2 Hs Hrun.
    eapply ev_quiescent_hang; [| exact Hat | exact Hs | exact Hrun].
    split; simpl; [done |]. by apply Forall_insert.
  - destruct (spurious_wake_returns _ _ Hat) as (w2 & Hrun & Hret & Hticks);
      [reflexivity | by destruct w as [[] ? ? ? ?]; simpl in *; subst |].
    exists w2. split; [exact Hrun |]. split; [exact Hret | exact Hticks].
Qed.

Lemma can_render_without_loop_hangs_witness :
  ∃ w1 w2 w3, run (can_render_sched 0) (init 1 0) = Ok w1
              ∧ at_pc w1 0 CrBlocked
              ∧ ev_run [Sched (Elapse (Chrono.milliseconds 1000)); Sched (Elapse 1)] w1
                = Ok w2
              ∧ at_pc w2 0 CrBlocked
              ∧ ev_run (spurious_resume 0) w1 = Ok w3
              ∧ at_pc w3 0 (Returned (RBool true)).
Proof.
  destruct (can_render_without_loop_hangs (init 1 0) 0)
    as (w1 & Hrun & Hat & Hhang & w3 & Hrun3 & Hat3 & _).
  - split; [reflexivity |]. repeat constructor.
  - left; reflexivity.
  - reflexivity.
  - reflexivity.
  - exists w1, (advance 1 (advance (Chrono.milliseconds 1000) w1)), w3.
    split; [exact Hrun |]. split; [exact Hat |].
    split; [reflexivity |].
    split; [| split; [exact Hrun3 | exact Hat3]].
    apply (Hhang [Sched (Elapse (Chrono.milliseconds 1000)); Sched (Elapse 1)]);
      reflexivity.
Defined.

(** X16.  The notify_all of stop can be lost.  stop notifies without
    holding the mutex, so it can run after a client has evaluated the
    predicate (flag clear) and before that client blocks; the client
    then blocks after the only notification and stop joins the loop
    and returns.  From then on no step of any thread and no passage of
    time releases the client, even though it is the only consumer:
    short of a new call, only a wake-up without notification ends the
    wait, and then can_render returns true. *)
Theorem stop_notify_can_be_lost (w : world) (c t : nat) :
  at_pc w c CrEnterWait → at_pc w t StopNotify → loop_at w LDone →
  (∀ u pc, clients w !! u = Some pc → u ≠ c → u ≠ t →
     pc = Idle ∨ ∃ v, pc = Returned v) →
  ∃ w', run [Step t; Step c; Step t] w = Ok w'
        ∧ at_pc w' t (Returned RVoid)
        ∧ at_pc w' c CrBlocked
        ∧ quiescent w'
        ∧ (∀ evs w2, forallb is_quiet evs = true →
             ev_run evs w' = Ok w2 → at_pc w2 c CrBlocked)
        ∧ (m_render_ready (timer w) = true →
           ∃ w2, ev_run (spurious_resume c) w' = Ok w2
                 ∧ at_pc w2 c (Returned (RBool true))
                 ∧ ticks w2 = ticks w).
Proof.
  unfold at_pc, loop_at. intros Hc Ht Hloop Hothers.
  assert (c ≠ t) as Hne by (intros ->; congruence).
  pose proof (lookup_lt_Some _ _ _ Hc) as Hlc.
  pose proof (lookup_lt_Some _ _ _ Ht) as Hlt.
  rewrite run_cons, (step_at _ _ _ Ht). cbn [client_step].
  rewrite run_cons, (step_at _ c CrEnterWait).
  2: { unfold at_pc. simpl.
       by rewrite list_lookup_insert_ne, list_lookup_fmap, Hc by done. }
  cbn [client_step].
  rewrite run_cons, (step_at _ t StopJoin).
  2: { unfold at_pc. simpl. rewrite list_lookup_insert_ne by done.
       apply list_lookup_insert_eq. by rewrite length_fmap. }
  simpl. rewrite Hloop. simpl.
  eexists. split; [reflexivity |].
  assert (∀ cl, cl = <[t := Returned RVoid]>
                       (<[c := CrBlocked]>
                          (<[t := StopJoin]> (wake <$> clients w))) →
                cl !! t = Some (Returned RVoid)
                ∧ cl !! c = Some CrBlocked
                ∧ Forall parked cl) as Hcl.
  { intros cl ->. split; [| split].
    - apply list_lookup_insert_eq. by rewrite !length_insert, length_fmap.
    - rewrite list_lookup_insert_ne by done.
      apply list_lookup_insert_eq. by rewrite length_insert, length_fmap.
    - apply Forall_lookup_2. intros u pc Hu.
      destruct (decide (u = t)) as [-> | Hut].
      + rewrite list_lookup_insert_eq in Hu
          by (by rewrite !length_insert, length_fmap).
        by simplify_eq.
      + rewrite list_lookup_insert_ne in Hu by done.
        destruct (decide (u = c)) as [-> | Huc].
        * rewrite list_lookup_insert_eq in Hu
            by (by rewrite length_insert, length_fmap).
          by simplify_eq.
        * rewrite !list_lookup_insert_ne, list_lookup_fmap in Hu by done.
          destruct (clients w !! u) as [pc0 |] eqn:Hpc0; [| done].
          simpl in Hu. simplify_eq.
          destruct (Hothers u pc0 Hpc0 Huc Hut) as [-> | [v ->]]; done. }
  destruct (Hcl _ eq_refl) as (Hat_t & Hat_c & Hparked).
  split; [exact Hat_t |]. split; [exact Hat_c |].
  assert (quiescent
            (set_client t (Returned RVoid)
               (set_timer
                  (with_thread NotJoinable
                     (with_mutex false (timer w)))
                  (set_client c CrBlocked
                     (set_timer (with_mutex false (timer w))
                        (set_client t StopJoin (notify_all w))))))) as Hq
    by (split; [reflexivity | exact Hparked]).
  split; [exact Hq |]. split.
  - intros evs w2 Hs Hrun.
    eapply ev_quiescent_hang; [exact Hq | exact Hat_c | exact Hs | exact Hrun].
  - intros Hready.
    destruct (spurious_wake_returns
                (set_client t (Returned RVoid)
                   (set_timer
                      (with_thread NotJoinable
                         (with_mutex false (timer w)))
                      (set_client c CrBlocked
                         (set_timer (with_mutex false (timer w))
                            (set_client t StopJoin (notify_all w)))))) c)
      as (w2 & Hrun & Hret & Hticks);
      [exact Hat_c | exact Hready | reflexivity |].
    exists w2. split; [exact Hrun |]. split; [exact Hret | exact Hticks].
Qed.

Lemma stop_notify_can_be_lost_witness :
  ∃ w w', run late_waiter_sched (init 2 0) = Ok w
          ∧ at_pc w 1 CrEnterWait ∧ at_pc w 0 StopNotify
          ∧ run [Step 0; Step 1; Step 0] w = Ok w'
          ∧ at_pc w' 0 (Returned RVoid)
          ∧ at_pc w' 1 CrBlocked
          ∧ quiescent w'.
Proof.
  eexists.
  match goal with
  | |- ∃ w', run ?s ?w0 = Ok ?w ∧ _ =>
      let r := eval vm_compute in (run s w0) in
      match r with
      | Ok ?w1 =>
          destruct (stop_notify_can_be_lost w1 1 0)
            as (w' & Hrun & Ht & Hc & Hq & _);
            [reflexivity | reflexivity | reflexivity
            | intros [| [| u]] pc Hu Hc Ht; [done | done | discriminate Hu] |];
          exists w'; split; [evaluate |];
          split; [reflexivity |]; split; [reflexivity |];
          split; [exact Hrun |]; split; [exact Ht |];
          split; [exact Hc | exact Hq]
      end
  end.
Defined.

(** *** An interval that has reached zero *)

Lemma measure_without_sleep w frame_start :
  loop_at w (LMeasure frame_start) →
  ∃ w', step LoopStep w = Ok w'
        ∧ (frame_duration w frame_start = m_render_interval (timer w) →
           loop_at w' LCheck
           ∧ m_render_interval (timer w') = m_render_interval (timer w))
        ∧ ((m_render_interval (timer w) < frame_duration w frame_start)%Z →
           loop_at w' LCheck
           ∧ m_render_interval (timer w')
             = Int.to_int (m_render_interval (timer w)
                           - (frame_duration w frame_start
                              - m_render_interval (timer w)))).
Proof.
  unfold loop_at. intros Hat.
  unfold step, loop_step. rewrite Hat.
  eexists. split; [reflexivity |]. unfold sleep_duration. split.
  - intros Heq. simpl.
    rewrite bool_decide_eq_false_2 by lia.
    by rewrite correct_interval_in_time by lia.
  - intros Hgt. simpl.
    rewrite bool_decide_eq_false_2 by lia.
    by rewrite correct_interval_overrun by lia.
Qed.

(** X17.  With the interval at zero or below, an iteration whose
    reading of the clock is not earlier than its frame_start does not
    sleep: it goes straight to the next iteration.  While
    i - (d - i) is at least INT_MIN the interval it leaves is at most
    i, and lower than i whenever i is negative or the work took a
    millisecond or more; below INT_MIN the int store wraps and the
    value stored lies above i - (d - i).  (A reading earlier than
    frame_start, which a clock that is not steady allows, is outside
    the statement.) *)
Theorem nonpositive_interval_runs_away (w : world) (frame_start : Z) :
  loop_at w (LMeasure frame_start) →
  (m_render_interval (timer w) ≤ 0)%Z →
  (frame_start ≤ clock w)%Z →
  ∃ w', step LoopStep w = Ok w'
        ∧ loop_at w' LCheck
        ∧ let i := m_render_interval (timer w) in
          let d := frame_duration w frame_start in
          (0 ≤ d)%Z
          ∧ ((Int.int_min ≤ i - (d - i))%Z →
             (m_render_interval (timer w') ≤ i)%Z
             ∧ ((i < 0)%Z ∨ (0 < d)%Z → (m_render_interval (timer w') < i)%Z))
          ∧ ((i - (d - i) < Int.int_min)%Z →
             (i - (d - i) < m_render_interval (timer w'))%Z).
Proof.
  intros Hat Hi Hs.
  assert (0 ≤ frame_duration w frame_start)%Z as Hd.
  { unfold frame_duration, Chrono.duration_cast_ms, Chrono.ns_per_ms.
    apply Z.quot_pos; lia. }
  destruct (measure_without_sleep w frame_start Hat)
    as (w' & Hstep & Heq & Hgt).
  exists w'. split; [exact Hstep |].
  destruct (decide (frame_duration w frame_start = m_render_interval (timer w)))
    as [Hsame | Hdiff].
  - destruct (Heq Hsame) as [Hcheck Hint].
    split; [exact Hcheck |]. cbv zeta. split; [exact Hd |].
    rewrite Hint. split.
    + intros _. split; [lia |]. intros [? | ?]; lia.
    + intros Hwrap. unfold Int.int_min in Hwrap. lia.
  - destruct Hgt as [Hcheck Hint]; [lia |].
    split; [exact Hcheck |]. cbv zeta. split; [exact Hd |].
    rewrite Hint. split.
    + intros Hmin.
      rewrite to_int_id
        by (unfold Int.in_range, Int.int_min, Int.int_max in *; lia).
      split; [lia |]. intros _. lia.
    + intros Hwrap.
      pose proof (to_int_in_range
                    (m_render_interval (timer w)
                     - (frame_duration w frame_start
                        - m_render_interval (timer w)))) as [Hlo _].
      lia.
Qed.

Lemma nonpositive_interval_runs_away_witness :
  ∃ w w', run (call_once 0 (SetFps 2000) ++ start_sched 0 ++ loop_tick
               ++ [Elapse (Chrono.milliseconds 3)]) (init 1 0) = Ok w
          ∧ m_render_interval (timer w) = 0%Z
          ∧ step LoopStep w = Ok w'
          ∧ loop_at w' LCheck
          ∧ (m_render_interval (timer w') < 0)%Z.
Proof.
  eexists.
  match goal with
  | |- ∃ w', run ?s ?w0 = Ok ?w ∧ _ =>
      let r := eval vm_compute in (run s w0) in
      match r with
      | Ok ?w1 =>
          destruct (nonpositive_interval_runs_away w1 0)
            as (w' & Hstep & Hcheck & _ & Hfall & _);
            [reflexivity | vm_compute; discriminate
            | vm_compute; discriminate |];
          exists w'; split; [evaluate |]; split; [reflexivity |];
          split; [exact Hstep |]; split; [exact Hcheck |];
          destruct Hfall as [_ Hlt]; [vm_compute; discriminate |];
          apply Hlt; right; vm_compute; reflexivity
      end
  end.
Defined.
